(** * trxstore: a transaction-keyed idempotency cache

    A shallow embedding of [idempotent-operations/trxstore/trxstore.go]
    and the properties of its store, its sweep and its sweeper goroutine.

    - [uuid.UUID] is a 16-byte array; it is modelled by the natural number
      its bytes spell, which makes it a countable key for [gmap].
    - [[]byte] is a Go slice, which is either [nil] or a (possibly empty)
      sequence of bytes; the two are kept apart.
    - [time.Time] values all come from [time.Now()], so they carry a
      monotonic clock reading: an [int64] count of nanoseconds.
    - The methods are modelled twice: with every critical section as one
      atomic step, where the claims about runs of the store are stated,
      and statement by statement under an explicit [sync.RWMutex], where
      it is proved that the lock makes the critical sections exclude each
      other and that each body, run alone, is its atomic step. *)

From Stdlib Require Import ZArith Lia.
From Stdlib.Strings Require Import Byte.
From stdpp Require Import gmap list.

Local Open Scope Z_scope.

(** ** The [time] package, as far as the store uses it *)

Module time.

Abbreviation Duration := Z (only parsing).
Abbreviation Time := Z (only parsing).

Definition minDuration : Duration := - 2 ^ 63.
Definition maxDuration : Duration := 2 ^ 63 - 1.

Definition Nanosecond : Duration := 1.
Definition Microsecond : Duration := 1000 * Nanosecond.
Definition Millisecond : Duration := 1000 * Microsecond.
Definition Second : Duration := 1000 * Millisecond.

(** [int64] arithmetic wraps around. *)
Definition wrap64 (z : Z) : Z := (z + 2 ^ 63) mod 2 ^ 64 - 2 ^ 63.

Definition int64 (z : Z) : Prop := minDuration <= z <= maxDuration.

(** [subMono]: the difference of two monotonic readings, saturated when
    the subtraction overflows. *)
Definition subMono (t u : Z) : Duration :=
  let d := wrap64 (t - u) in
  if (d <? 0) && (u <? t) then maxDuration
  else if (0 <? d) && (t <? u) then minDuration
  else d.

Definition Sub (t u : Time) : Duration := subMono t u.

(** [time.Since(t)] is [time.Now().Sub(t)]; the clock reading is an
    argument here. *)
Definition Since (now t : Time) : Duration := Sub now t.

End time.

(** ** Data *)

Abbreviation UUID := N (only parsing).

(** A Go byte slice: [Nil] is the nil slice, [Bytes l] a non-nil slice
    holding [l] (which may be empty). The store keeps and returns slice
    values; it never writes into one. *)
Inductive ByteSlice :=
  | Nil
  | Bytes (data : list byte).

Definition len (b : ByteSlice) : nat :=
  match b with
  | Nil => 0%nat
  | Bytes l => length l
  end.

Definition contents (b : ByteSlice) : list byte :=
  match b with
  | Nil => []
  | Bytes l => l
  end.

(** [b == nil] *)
Definition is_nil (b : ByteSlice) : bool :=
  match b with
  | Nil => true
  | Bytes _ => false
  end.

#[global] Instance byte_eq_decision : EqDecision byte := byte_eq_dec.

(** [bytes.Equal]: equal length and equal bytes; a nil slice is equal to
    an empty one. *)
Definition bytes_Equal (a b : ByteSlice) : bool :=
  bool_decide (contents a = contents b).

Record BytesTrxStore := mkStore {
  cache : gmap N ByteSlice;
  cacheExpire : gmap N time.Time;
  ttl : time.Duration
}.

(** ** Operations of the store *)

(** The struct literal of [NewBytesTRXStoreWithContext]. *)
Definition emptyStore (ttl : time.Duration) : BytesTrxStore :=
  {| cache := ∅; cacheExpire := ∅; ttl := ttl |}.

(** [p.cache[trx]]: a missing key reads as the zero value, the nil slice. *)
Definition Check (p : BytesTrxStore) (trx : UUID) : ByteSlice :=
  default Nil (cache p !! trx).

(** [Store]; [now] is what [time.Now()] returns inside the critical
    section. *)
Definition Store (p : BytesTrxStore) (trx : UUID) (result : ByteSlice)
    (now : time.Time) : BytesTrxStore :=
  {| cache := <[trx := result]> (cache p);
     cacheExpire := <[trx := now]> (cacheExpire p);
     ttl := ttl p |}.

(** ** The sweep: [cleanupExpired] *)

(** The read phase: the loop over [p.cacheExpire] under the read lock.
    Every iteration calls [time.Since], which reads the clock again;
    [clk id] is the reading of the iteration that visits [id] (Go visits
    every key once, in an unspecified order). *)
Definition entriesForRemove (p : BytesTrxStore) (clk : UUID → time.Time)
    : gset N :=
  map_fold
    (λ id createdAt acc,
       if decide (time.Since (clk id) createdAt > ttl p)
       then {[id]} ∪ acc else acc)
    ∅ (cacheExpire p).

(** The body of the delete loop. *)
Definition deleteEntry (p : BytesTrxStore) (entryId : UUID) : BytesTrxStore :=
  {| cache := delete entryId (cache p);
     cacheExpire := delete entryId (cacheExpire p);
     ttl := ttl p |}.

(** The write phase: the loop over the collected set under the write
    lock. *)
Definition deleteEntries (p : BytesTrxStore) (batch : gset N)
    : BytesTrxStore :=
  set_fold (λ entryId acc, deleteEntry acc entryId) p batch.

(** The write phase with its guard [len(entriesForRemove) > 0]. *)
Definition deletePhase (p : BytesTrxStore) (batch : gset N) : BytesTrxStore :=
  if decide (0 < size batch)%nat then deleteEntries p batch else p.

(** One run of [cleanupExpired] with nothing else running between its two
    phases. *)
Definition cleanupExpired (p : BytesTrxStore) (clk : UUID → time.Time)
    : BytesTrxStore :=
  deletePhase p (entriesForRemove p clk).

(** The two mappings have the same keys. *)
Definition keys_agree (p : BytesTrxStore) : Prop :=
  ∀ id : UUID, is_Some (cache p !! id) ↔ is_Some (cacheExpire p !! id).

(** ** Sequential histories

    The public operations and complete sweep runs, one after the other. *)

Inductive op :=
  | OpStore (trx : UUID) (result : ByteSlice) (now : time.Time)
  | OpCheck (trx : UUID)
  | OpSweep (clk : UUID → time.Time).

Definition apply_op (p : BytesTrxStore) (o : op) : BytesTrxStore :=
  match o with
  | OpStore trx result now => Store p trx result now
  | OpCheck _ => p
  | OpSweep clk => cleanupExpired p clk
  end.

Definition run_ops (p : BytesTrxStore) (os : list op) : BytesTrxStore :=
  foldl apply_op p os.

Definition stores_to (id : UUID) (o : op) : bool :=
  match o with
  | OpStore trx _ _ => bool_decide (trx = id)
  | _ => false
  end.

(** A sweep that visits [id] between [t0] and [t0 + d]. *)
Definition sweep_within (id : UUID) (t0 : time.Time) (d : time.Duration)
    (o : op) : Prop :=
  match o with
  | OpSweep clk => t0 <= clk id ∧ clk id - t0 <= d
  | _ => True
  end.

(** A sweep at which the age of an entry created at [t0] exceeds [d]. *)
Definition sweep_past (id : UUID) (t0 : time.Time) (d : time.Duration)
    (o : op) : Prop :=
  match o with
  | OpSweep clk => time.Since (clk id) t0 > d
  | _ => False
  end.

(** ** The sweeper goroutine: [watchExpire]

    A [context.Context] is seen through its [Done()] channel only, which
    is either still open or closed. The [ctx] argument itself may be the
    nil interface. *)

Record Context := mkContext { doneClosed : bool }.

Definition sleepBetweenExpireCheck : time.Duration := 100 * time.Millisecond.

(** Where the goroutine stands: at the head of its loop (the receive of
    [for range timer.C], or the [select]), between the two phases of
    [cleanupExpired] with the collected set in hand, or returned. *)
Inductive pc :=
  | AtLoop
  | Scanned (batch : gset N)
  | Returned.

Record Sweeper := mkSweeper {
  ctx : option Context;
  tickPending : bool;   (* [timer.C], a channel of capacity 1, holds a tick *)
  tickerStopped : bool; (* [timer.Stop()] has been called *)
  at_ : pc
}.

Record System := mkSystem {
  store : BytesTrxStore;
  sweeper : Sweeper
}.

(** [go res.watchExpire(ctx)]: a fresh ticker of period
    [sleepBetweenExpireCheck], the goroutine at the head of its loop. *)
Definition watchExpire_start (ctx : option Context) : Sweeper :=
  {| ctx := ctx; tickPending := false; tickerStopped := false; at_ := AtLoop |}.

Definition NewBytesTRXStoreWithContext (ctx : option Context)
    (ttl : time.Duration) : System :=
  {| store := emptyStore ttl; sweeper := watchExpire_start ctx |}.

Definition NewBytesTRXStore (ttl : time.Duration) : System :=
  NewBytesTRXStoreWithContext None ttl.

(** The atomic steps of the system. Callers run [Store] and [Check]; the
    runtime delivers ticks and closes [ctx.Done()]; the goroutine of
    [watchExpire] receives a tick and runs the read phase, runs the
    write phase, or takes the [<-ctx.Done()] case. *)
Inductive event :=
  | EvStore (trx : UUID) (result : ByteSlice) (now : time.Time)
  | EvCheck (trx : UUID)
  | EvTick
  | EvCancel
  | EvScan (clk : UUID → time.Time)
  | EvDelete
  | EvDone.

Definition with_store (st : System) (p : BytesTrxStore) : System :=
  {| store := p; sweeper := sweeper st |}.

Definition with_sweeper (st : System) (w : Sweeper) : System :=
  {| store := store st; sweeper := w |}.

(** [step st e] is [None] when [e] cannot happen in [st]. *)
Definition step (st : System) (e : event) : option System :=
  let w := sweeper st in
  match e with
  | EvStore trx result now => Some (with_store st (Store (store st) trx result now))
  | EvCheck _ => Some st
  | EvTick =>
      (* a stopped ticker sends nothing; a tick that finds the channel
         full is dropped *)
      if tickerStopped w then None
      else Some (with_sweeper st
             {| ctx := ctx w; tickPending := true;
                tickerStopped := tickerStopped w; at_ := at_ w |})
  | EvCancel =>
      match ctx w with
      | None => None
      | Some _ =>
          Some (with_sweeper st
             {| ctx := Some (mkContext true); tickPending := tickPending w;
                tickerStopped := tickerStopped w; at_ := at_ w |})
      end
  | EvScan clk =>
      (* [<-timer.C], in either loop, then the read phase *)
      match at_ w with
      | AtLoop =>
          if tickPending w then
            Some (with_sweeper st
               {| ctx := ctx w; tickPending := false;
                  tickerStopped := tickerStopped w;
                  at_ := Scanned (entriesForRemove (store st) clk) |})
          else None
      | _ => None
      end
  | EvDelete =>
      match at_ w with
      | Scanned batch =>
          Some {| store := deletePhase (store st) batch;
                  sweeper := {| ctx := ctx w; tickPending := tickPending w;
                                tickerStopped := tickerStopped w;
                                at_ := AtLoop |} |}
      | _ => None
      end
  | EvDone =>
      (* only the [select] of the non-nil branch has this case *)
      match at_ w, ctx w with
      | AtLoop, Some c =>
          if doneClosed c then
            Some (with_sweeper st
               {| ctx := ctx w; tickPending := tickPending w;
                  tickerStopped := true; at_ := Returned |})
          else None
      | _, _ => None
      end
  end.

Fixpoint run (st : System) (evs : list event) : option System :=
  match evs with
  | [] => Some st
  | e :: evs' =>
      match step st e with
      | Some st' => run st' evs'
      | None => None
      end
  end.

(** The steps of the sweeper goroutine itself: its wakes. *)
Definition is_wake (e : event) : bool :=
  match e with
  | EvScan _ | EvDone => true
  | _ => false
  end.

Definition ev_stores_to (id : UUID) (e : event) : bool :=
  match e with
  | EvStore trx _ _ => bool_decide (trx = id)
  | _ => false
  end.

(** The identifiers that the write phases of [evs] delete, from [st] on. *)
Fixpoint deleted (st : System) (evs : list event) : gset N :=
  match evs with
  | [] => ∅
  | e :: evs' =>
      match step st e with
      | Some st' =>
          match e, at_ (sweeper st) with
          | EvDelete, Scanned batch => batch ∪ deleted st' evs'
          | _, _ => deleted st' evs'
          end
      | None => ∅
      end
  end.

(** A read phase that visits [id] between [t0] and [t0 + d]. *)
Definition scan_within (id : UUID) (t0 : time.Time) (d : time.Duration)
    (e : event) : Prop :=
  match e with
  | EvScan clk => t0 <= clk id ∧ clk id - t0 <= d
  | _ => True
  end.

(** No batch that the sweeper has collected and not yet deleted holds
    [id]. *)
Definition no_stale_batch (id : UUID) (st : System) : Prop :=
  ∀ batch, at_ (sweeper st) = Scanned batch → id ∉ batch.

(** A run in which a [Store] lands between the two phases of a sweep:
    TTL 10ns; [Store(1, "a")] at 0; a tick; the read phase at 11 collects
    identifier 1; [Store(1, "b")] at 11; the write phase; [Check(1)]. *)
Definition stale_sweep_trace : list event :=
  [EvStore 1%N (Bytes [x61]) 0; EvTick; EvScan (λ _, 11);
   EvStore 1%N (Bytes [x62]) 11; EvDelete; EvCheck 1%N].

(** The test of the repository, [TestNewTRXStore]: TTL 10ms; a check of a
    new identifier; [Store] of "test"; a check; one second of sleep, in
    which the ticker fires every [sleepBetweenExpireCheck] and the first
    sweep, 100ms after the [Store], finds the entry expired; a check. *)
Definition TestNewTRXStore_trace (trx : UUID) : list event :=
  [EvCheck trx;
   EvStore trx (Bytes [x74; x65; x73; x74]) 0;
   EvCheck trx;
   EvTick; EvScan (λ _, sleepBetweenExpireCheck); EvDelete;
   EvTick; EvScan (λ _, 2 * sleepBetweenExpireCheck); EvDelete;
   EvCheck trx].

(** "Once the signal has fired, the next wake of the sweeper stops it, and
    stops its timer, without touching the entries." *)
Definition stops_on_next_wake : Prop :=
  ∀ c d evs st e st',
    run (NewBytesTRXStoreWithContext (Some c) d) evs = Some st →
    ctx (sweeper st) = Some (mkContext true) →
    is_wake e = true →
    step st e = Some st' →
    at_ (sweeper st') = Returned
    ∧ tickerStopped (sweeper st') = true
    ∧ store st' = store st.


(** ** The methods statement by statement, under [sync.RWMutex]

    The steps above take every critical section as one atomic step. Here
    the lock is explicit and a goroutine advances one statement at a
    time, so that what the lock guarantees is proved and not assumed. *)

Record RWMutex := mkMutex {
  readers : nat;   (* goroutines holding the read lock *)
  writer : bool    (* a goroutine holds the write lock *)
}.

Definition unlocked : RWMutex := {| readers := 0; writer := false |}.

(** [None]: the caller has to wait. (Go also makes new readers wait
    behind a waiting writer; that only narrows the schedules.) *)
Definition RLock (m : RWMutex) : option RWMutex :=
  if writer m then None
  else Some {| readers := S (readers m); writer := false |}.

Definition RUnlock (m : RWMutex) : RWMutex :=
  {| readers := Nat.pred (readers m); writer := writer m |}.

Definition Lock (m : RWMutex) : option RWMutex :=
  if writer m then None
  else match readers m with
       | O => Some {| readers := 0; writer := true |}
       | S _ => None
       end.

Definition Unlock (m : RWMutex) : RWMutex :=
  {| readers := readers m; writer := false |}.

(** The statement a goroutine is about to run. *)
Inductive thread :=
  (* Check(trx) *)
  | Check_RLock (trx : UUID)
  | Check_read (trx : UUID)
  | Check_RUnlock (res : ByteSlice)
  | Check_return (res : ByteSlice)
  (* Store(trx, result) *)
  | Store_Lock (trx : UUID) (result : ByteSlice)
  | Store_cache (trx : UUID) (result : ByteSlice)
  | Store_cacheExpire (trx : UUID)
  | Store_Unlock
  | Store_return
  (* cleanupExpired(), called again at every tick *)
  | Sweep_RLock
  | Sweep_range
  | Sweep_RUnlock (batch : gset N)
  | Sweep_len (batch : gset N)
  | Sweep_delete_cache (todo : list N)
  | Sweep_delete_cacheExpire (entryId : UUID) (todo : list N)
  | Sweep_Unlock
  | Sweep_return.

Definition holds_read (t : thread) : bool :=
  match t with
  | Check_read _ | Check_RUnlock _ | Sweep_range | Sweep_RUnlock _ => true
  | _ => false
  end.

Definition holds_write (t : thread) : bool :=
  match t with
  | Store_cache _ _ | Store_cacheExpire _ | Store_Unlock
  | Sweep_delete_cache _ | Sweep_delete_cacheExpire _ _ | Sweep_Unlock => true
  | _ => false
  end.

(** One statement of one goroutine. [clk] gives the clock readings of the
    statement: [clk trx] for the [time.Now()] of [Store], [clk id] for the
    iteration of the range loop that visits [id]. *)
Definition tstep (clk : UUID → time.Time) (t : thread) (p : BytesTrxStore)
    (m : RWMutex) : option (thread * BytesTrxStore * RWMutex) :=
  match t with
  | Check_RLock trx => m' ← RLock m; Some (Check_read trx, p, m')
  | Check_read trx => Some (Check_RUnlock (default Nil (cache p !! trx)), p, m)
  | Check_RUnlock res => Some (Check_return res, p, RUnlock m)
  | Check_return _ => None
  | Store_Lock trx result => m' ← Lock m; Some (Store_cache trx result, p, m')
  | Store_cache trx result =>
      Some (Store_cacheExpire trx,
            {| cache := <[trx := result]> (cache p);
               cacheExpire := cacheExpire p; ttl := ttl p |}, m)
  | Store_cacheExpire trx =>
      Some (Store_Unlock,
            {| cache := cache p;
               cacheExpire := <[trx := clk trx]> (cacheExpire p);
               ttl := ttl p |}, m)
  | Store_Unlock => Some (Store_return, p, Unlock m)
  | Store_return => None
  | Sweep_RLock => m' ← RLock m; Some (Sweep_range, p, m')
  | Sweep_range => Some (Sweep_RUnlock (entriesForRemove p clk), p, m)
  | Sweep_RUnlock batch => Some (Sweep_len batch, p, RUnlock m)
  | Sweep_len batch =>
      if decide (0 < size batch)%nat
      then m' ← Lock m; Some (Sweep_delete_cache (elements batch), p, m')
      else Some (Sweep_return, p, m)
  | Sweep_delete_cache [] => Some (Sweep_Unlock, p, m)
  | Sweep_delete_cache (entryId :: todo) =>
      Some (Sweep_delete_cacheExpire entryId todo,
            {| cache := delete entryId (cache p);
               cacheExpire := cacheExpire p; ttl := ttl p |}, m)
  | Sweep_delete_cacheExpire entryId todo =>
      Some (Sweep_delete_cache todo,
            {| cache := cache p;
               cacheExpire := delete entryId (cacheExpire p);
               ttl := ttl p |}, m)
  | Sweep_Unlock => Some (Sweep_return, p, Unlock m)
  | Sweep_return => Some (Sweep_RLock, p, m)
  end.

Record Program := mkProgram {
  mem : BytesTrxStore;
  cacheLock : RWMutex;
  threads : list thread
}.

(** The scheduler runs a statement of goroutine [who]. *)
Definition pstep (s : Program) (who : nat) (clk : UUID → time.Time)
    : option Program :=
  t ← threads s !! who;
  r ← tstep clk t (mem s) (cacheLock s);
  Some {| mem := r.1.2; cacheLock := r.2;
          threads := <[who := r.1.1]> (threads s) |}.

Fixpoint prun (s : Program) (sched : list (nat * (UUID → time.Time)))
    : option Program :=
  match sched with
  | [] => Some s
  | (who, clk) :: sched' =>
      match pstep s who clk with
      | Some s' => prun s' sched'
      | None => None
      end
  end.

(** A goroutine inside a call of [Check]. *)
Definition runs_Check (t : thread) : bool :=
  match t with
  | Check_RLock _ | Check_read _ | Check_RUnlock _ | Check_return _ => true
  | _ => false
  end.

(** A goroutine about to call a method. *)
Definition at_entry (t : thread) : bool :=
  match t with
  | Check_RLock _ | Store_Lock _ _ | Sweep_RLock => true
  | _ => false
  end.

(** A freshly constructed store with goroutines about to call its
    methods. *)
Definition program_start (ttl : time.Duration) (ts : list thread) : Program :=
  {| mem := emptyStore ttl; cacheLock := unlocked; threads := ts |}.

Fixpoint count (f : thread → bool) (ts : list thread) : nat :=
  match ts with
  | [] => 0
  | t :: ts' => (if f t then 1 else 0) + count f ts'
  end.

(** The two mappings have the same keys but for [id], which is on its way
    into both or out of both. *)
Definition keys_agree_but (id : UUID) (p : BytesTrxStore) : Prop :=
  ∀ i : UUID, i ≠ id →
    (is_Some (cache p !! i) ↔ is_Some (cacheExpire p !! i)).

(** What the write in progress, if any, leaves to be done. *)
Definition in_progress (t : thread) (p : BytesTrxStore) : Prop :=
  match t with
  | Store_cacheExpire trx =>
      keys_agree_but trx p ∧ is_Some (cache p !! trx)
  | Sweep_delete_cacheExpire entryId _ =>
      keys_agree_but entryId p ∧ cache p !! entryId = None
  | _ => if holds_write t then keys_agree p else True
  end.

(** What the lock maintains: the read lock is held by as many goroutines
    as the mutex counts; the write lock by one, and then by no reader; the
    key sets agree whenever no write is in progress. *)
Definition lock_inv (s : Program) : Prop :=
  readers (cacheLock s) = count holds_read (threads s)
  ∧ (if writer (cacheLock s)
     then count holds_write (threads s) = 1%nat
          ∧ count holds_read (threads s) = 0%nat
     else count holds_write (threads s) = 0%nat)
  ∧ (count holds_write (threads s) = 0%nat → keys_agree (mem s))
  ∧ (∀ j t, threads s !! j = Some t → in_progress t (mem s)).

(** A goroutine alone: it runs [n] statements, or up to where it stops. *)
Fixpoint trun (n : nat) (clk : UUID → time.Time) (t : thread)
    (p : BytesTrxStore) (m : RWMutex) : thread * BytesTrxStore * RWMutex :=
  match n with
  | O => (t, p, m)
  | S n' =>
      match tstep clk t p m with
      | Some (t', p', m') => trun n' clk t' p' m'
      | None => (t, p, m)
      end
  end.

(** The same run statement by statement: goroutine 0 runs
    [Store(1, "a")], 1 runs [cleanupExpired], 2 runs [Store(1, "b")] and 3
    runs [Check(1)]. Goroutine 2 takes the write lock after goroutine 1
    has released the read lock and before it takes the write lock. *)
Definition stale_sweep_threads : list thread :=
  [Store_Lock 1%N (Bytes [x61]); Sweep_RLock;
   Store_Lock 1%N (Bytes [x62]); Check_RLock 1%N].

Definition stale_sweep_schedule : list (nat * (UUID → time.Time)) :=
  replicate 4 (0%nat, λ _ : N, 0)
  ++ replicate 3 (1%nat, λ _ : N, 11)
  ++ replicate 4 (2%nat, λ _ : N, 11)
  ++ replicate 5 (1%nat, λ _ : N, 12)
  ++ replicate 3 (3%nat, λ _ : N, 12).

(** ** Further notions on the store and its runs *)


(** The last [Store] for [id] among [evs]: its result and its time. *)
Definition last_store (id : UUID) (evs : list event)
    : option (ByteSlice * time.Time) :=
  foldl (λ acc e,
           match e with
           | EvStore trx result now =>
               if decide (trx = id) then Some (result, now) else acc
           | _ => acc
           end)
        None evs.





(** A goroutine that has returned from [Check] or [Store]. *)
Definition returned (t : thread) : bool :=
  match t with
  | Check_return _ | Store_return => true
  | _ => false
  end.



(** ** The pattern of use: [processRequest]

    The example of [idempotent-operations.md]. [doSomething] is left
    open there; it is a parameter here, acting on the rest of the server
    (its state [W]) and returning a response or an error. *)

Module server.

Record Request (D : Type) := mkRequest {
  Trx : N;
  data : D
}.
Arguments mkRequest {D} _ _.
Arguments Trx {D} _.
Arguments data {D} _.

Record Server (W Resp : Type) := mkServer {
  requestCache : gmap N Resp;
  world : W
}.
Arguments mkServer {W Resp} _ _.
Arguments requestCache {W Resp} _.
Arguments world {W Resp} _.

(** [resp, exists := s.requestCache[clientRequest.Trx]], under the read
    lock. *)
Definition lookup_phase {D W Resp} (s : Server W Resp) (req : Request D)
    : option Resp :=
  requestCache s !! Trx req.

(** [s.doSomething(clientRequest)], outside any lock. *)
Definition execute_phase {D W Resp Err}
    (doSomething : Request D → W → W * (Resp + Err))
    (s : Server W Resp) (req : Request D) : Server W Resp * (Resp + Err) :=
  let r := doSomething req (world s) in
  ({| requestCache := requestCache s; world := r.1 |}, r.2).

(** [s.requestCache[clientRequest.Trx] = resp], under the write lock. *)
Definition remember_phase {D W Resp} (s : Server W Resp) (req : Request D)
    (resp : Resp) : Server W Resp :=
  {| requestCache := <[Trx req := resp]> (requestCache s);
     world := world s |}.

(** One call with no other call in between. *)
Definition processRequest {D W Resp Err}
    (doSomething : Request D → W → W * (Resp + Err))
    (s : Server W Resp) (req : Request D) : Server W Resp * (Resp + Err) :=
  match lookup_phase s req with
  | Some resp => (s, inl resp)
  | None =>
      let r := execute_phase doSomething s req in
      match r.2 with
      | inr err => (r.1, inr err)
      | inl resp => (remember_phase r.1 req resp, inl resp)
      end
  end.

(** A client repeats its request. *)
Fixpoint processAll {D W Resp Err}
    (doSomething : Request D → W → W * (Resp + Err))
    (s : Server W Resp) (reqs : list (Request D))
    : Server W Resp * list (Resp + Err) :=
  match reqs with
  | [] => (s, [])
  | req :: reqs' =>
      let r := processRequest doSomething s req in
      let rs := processAll doSomething r.1 reqs' in
      (rs.1, r.2 :: rs.2)
  end.


End server.

(** * Lemmas *)

(** ** Lemmas on the sweep *)

Lemma elem_of_entriesForRemove (p : BytesTrxStore) (clk : UUID → time.Time)
    (id : UUID) :
  id ∈ entriesForRemove p clk ↔
  ∃ createdAt, cacheExpire p !! id = Some createdAt
               ∧ time.Since (clk id) createdAt > ttl p.
Proof.
  unfold entriesForRemove.
  generalize (ttl p); intros d.
  apply (map_fold_weak_ind
    (λ (acc : gset N) (m : gmap N time.Time),
       id ∈ acc ↔ ∃ t, m !! id = Some t ∧ time.Since (clk id) t > d)).
  - split; [set_solver|]. intros (t & Hl & _). by rewrite lookup_empty in Hl.
  - intros i x m acc Hfresh IH.
    destruct (decide (i = id)) as [->|Hne].
    + rewrite lookup_insert_eq. case_decide.
      * split; [eauto|set_solver].
      * rewrite IH. split.
        -- intros (t & Hl & _). congruence.
        -- intros (t & [= ->] & Ht). done.
    + rewrite lookup_insert_ne by done. case_decide; [|done].
      rewrite elem_of_union, elem_of_singleton, IH. naive_solver.
Qed.

Lemma deleteEntries_spec (p : BytesTrxStore) (batch : gset N) :
  (∀ id, cache (deleteEntries p batch) !! id =
           if decide (id ∈ batch) then None else cache p !! id)
  ∧ (∀ id, cacheExpire (deleteEntries p batch) !! id =
           if decide (id ∈ batch) then None else cacheExpire p !! id)
  ∧ ttl (deleteEntries p batch) = ttl p.
Proof.
  unfold deleteEntries.
  refine (set_fold_ind_L
    (λ (q : BytesTrxStore) (X : gset N),
       (∀ id, cache q !! id = if decide (id ∈ X) then None else cache p !! id)
       ∧ (∀ id, cacheExpire q !! id =
                  if decide (id ∈ X) then None else cacheExpire p !! id)
       ∧ ttl q = ttl p) _ p _ _ batch).
  - repeat split; intros id; by rewrite decide_False by set_solver.
  - intros x X q Hx (Hc & He & Ht). repeat split; simpl; [| |done].
    + intros id. destruct (decide (id = x)) as [->|Hne].
      * rewrite lookup_delete_eq. by rewrite decide_True by set_solver.
      * rewrite lookup_delete_ne by done. rewrite Hc.
        repeat case_decide; set_solver.
    + intros id. destruct (decide (id = x)) as [->|Hne].
      * rewrite lookup_delete_eq. by rewrite decide_True by set_solver.
      * rewrite lookup_delete_ne by done. rewrite He.
        repeat case_decide; set_solver.
Qed.

Lemma deletePhase_spec (p : BytesTrxStore) (batch : gset N) :
  (∀ id, cache (deletePhase p batch) !! id =
           if decide (id ∈ batch) then None else cache p !! id)
  ∧ (∀ id, cacheExpire (deletePhase p batch) !! id =
           if decide (id ∈ batch) then None else cacheExpire p !! id)
  ∧ ttl (deletePhase p batch) = ttl p.
Proof.
  unfold deletePhase. case_decide as Hsz; [apply deleteEntries_spec|].
  assert (batch = ∅) as ->
    by (apply leibniz_equiv, size_empty_iff; lia).
  repeat split; intros id; by rewrite decide_False by set_solver.
Qed.

Lemma cleanupExpired_spec (p : BytesTrxStore) (clk : UUID → time.Time) :
  (∀ id, cache (cleanupExpired p clk) !! id =
           if decide (id ∈ entriesForRemove p clk) then None
           else cache p !! id)
  ∧ (∀ id, cacheExpire (cleanupExpired p clk) !! id =
           if decide (id ∈ entriesForRemove p clk) then None
           else cacheExpire p !! id)
  ∧ ttl (cleanupExpired p clk) = ttl p.
Proof. apply deletePhase_spec. Qed.

Lemma cleanupExpired_drop (p : BytesTrxStore) (clk : UUID → time.Time)
    (id : UUID) (createdAt : time.Time) :
  cacheExpire p !! id = Some createdAt →
  time.Since (clk id) createdAt > ttl p →
  cache (cleanupExpired p clk) !! id = None
  ∧ cacheExpire (cleanupExpired p clk) !! id = None.
Proof.
  intros Hl Hage. destruct (cleanupExpired_spec p clk) as (Hc & He & _).
  rewrite Hc, He.
  rewrite !decide_True; [done| |]; apply elem_of_entriesForRemove; eauto.
Qed.

Lemma cleanupExpired_keep (p : BytesTrxStore) (clk : UUID → time.Time)
    (id : UUID) :
  (∀ createdAt, cacheExpire p !! id = Some createdAt →
                ¬ time.Since (clk id) createdAt > ttl p) →
  cache (cleanupExpired p clk) !! id = cache p !! id
  ∧ cacheExpire (cleanupExpired p clk) !! id = cacheExpire p !! id.
Proof.
  intros Hyoung. destruct (cleanupExpired_spec p clk) as (Hc & He & _).
  assert (id ∉ entriesForRemove p clk) as Hnot.
  { rewrite elem_of_entriesForRemove. intros (t & Hl & Hage).
    by apply (Hyoung t). }
  by rewrite Hc, He, !decide_False.
Qed.

(** ** Lemmas on the clock *)

Lemma wrap64_id (z : Z) : time.int64 z → time.wrap64 z = z.
Proof.
  unfold time.int64, time.wrap64, time.minDuration, time.maxDuration.
  intros Hz. rewrite Z.mod_small by lia. lia.
Qed.

(** Within the range of a [Duration], [time.Since] is the plain
    difference of the two readings. *)
Lemma Since_exact (now t : time.Time) :
  time.int64 (now - t) → time.Since now t = now - t.
Proof.
  intros Hr. unfold time.Since, time.Sub, time.subMono.
  rewrite wrap64_id by done.
  destruct (Z.ltb_spec (now - t) 0), (Z.ltb_spec t now),
    (Z.ltb_spec 0 (now - t)), (Z.ltb_spec now t); simpl; lia.
Qed.

(** The age that the sweep computes never exceeds the time that has
    passed. *)
Lemma Since_le (now t : time.Time) :
  t <= now → time.Since now t <= now - t.
Proof.
  intros Hle. unfold time.Since, time.Sub, time.subMono, time.wrap64,
    time.maxDuration, time.minDuration.
  pose proof (Z.mod_pos_bound (now - t + 2 ^ 63) (2 ^ 64) ltac:(lia)) as Hb.
  pose proof (Z.div_mod (now - t + 2 ^ 63) (2 ^ 64) ltac:(lia)) as Hd.
  assert (0 <= (now - t + 2 ^ 63) / 2 ^ 64) by (apply Z.div_pos; lia).
  destruct (Z.ltb_spec ((now - t + 2 ^ 63) mod 2 ^ 64 - 2 ^ 63) 0),
    (Z.ltb_spec t now), (Z.ltb_spec 0 ((now - t + 2 ^ 63) mod 2 ^ 64 - 2 ^ 63)),
    (Z.ltb_spec now t); simpl; try lia.
Qed.

(** ** Lemmas on runs of the system *)

Lemma run_app (st : System) (evs1 evs2 : list event) :
  run st (evs1 ++ evs2) = run st evs1 ≫= λ st', run st' evs2.
Proof.
  revert st. induction evs1 as [|e evs1 IH]; intros st; simpl; [done|].
  destruct (step st e); simpl; [apply IH|done].
Qed.

Lemma run_invariant (P : System → Prop) :
  (∀ st e st', P st → step st e = Some st' → P st') →
  ∀ evs st st', P st → run st evs = Some st' → P st'.
Proof.
  intros Hstep. induction evs as [|e evs IH]; intros st st' HP Hrun;
    simpl in Hrun.
  - by injection Hrun as <-.
  - destruct (step st e) as [st1|] eqn:He; [|done]. eauto.
Qed.

(** What a step does to the store: a [Store], a write phase, or nothing. *)
Lemma step_store (st : System) (e : event) (st' : System) :
  step st e = Some st' →
  match e with
  | EvStore trx result now => store st' = Store (store st) trx result now
  | EvDelete => ∃ batch, at_ (sweeper st) = Scanned batch
                         ∧ store st' = deletePhase (store st) batch
  | _ => store st' = store st
  end.
Proof.
  destruct st as [p [c tk stp a]], e; simpl; intros Hs.
  - by injection Hs as <-.
  - by injection Hs as <-.
  - destruct stp; [done|]. by injection Hs as <-.
  - destruct c; [|done]. by injection Hs as <-.
  - destruct a; try done. destruct tk; [|done]. by injection Hs as <-.
  - destruct a; try done. injection Hs as <-. eauto.
  - destruct a; try done. destruct c as [[[]]|]; try done.
    by injection Hs as <-.
Qed.

Lemma keys_agree_emptyStore (d : time.Duration) : keys_agree (emptyStore d).
Proof. intros id. simpl. by rewrite !lookup_empty. Qed.

Lemma keys_agree_Store (p : BytesTrxStore) (id : UUID) (b : ByteSlice)
    (now : time.Time) :
  keys_agree p → keys_agree (Store p id b now).
Proof.
  intros Hp i. simpl. destruct (decide (id = i)) as [->|Hne].
  - rewrite !lookup_insert_eq. split; eauto.
  - rewrite !lookup_insert_ne by done. apply Hp.
Qed.

Lemma keys_agree_deletePhase (p : BytesTrxStore) (batch : gset N) :
  keys_agree p → keys_agree (deletePhase p batch).
Proof.
  intros Hp i. destruct (deletePhase_spec p batch) as (Hc & He & _).
  rewrite Hc, He. case_decide; [|apply Hp].
  split; intros [? ?]; done.
Qed.

Lemma keys_agree_step (st : System) (e : event) (st' : System) :
  keys_agree (store st) → step st e = Some st' → keys_agree (store st').
Proof.
  intros Hk Hs. apply step_store in Hs. destruct e;
    try (rewrite Hs; done).
  - rewrite Hs. by apply keys_agree_Store.
  - destruct Hs as (batch & _ & ->). by apply keys_agree_deletePhase.
Qed.

(** For a single reading [now] of the clock, the criterion of the sweep is
    the plain [now - createdAt > ttl] whenever that difference fits a
    [Duration]. *)
Lemma sweep_criterion_plain (now createdAt : time.Time) (d : time.Duration) :
  time.int64 (now - createdAt) →
  (time.Since now createdAt > d ↔ now - createdAt > d).
Proof. intros Hr. by rewrite Since_exact. Qed.

(** ** Lemmas on absence *)

Lemma step_absent (st : System) (e : event) (st' : System) (id : UUID) :
  step st e = Some st' →
  ev_stores_to id e = false →
  cache (store st) !! id = None →
  cache (store st') !! id = None.
Proof.
  intros Hs Hne Habs. apply step_store in Hs.
  destruct e; try (by rewrite Hs).
  - rewrite Hs. simpl in *. apply bool_decide_eq_false in Hne.
    by rewrite lookup_insert_ne.
  - destruct Hs as (batch & _ & ->).
    destruct (deletePhase_spec (store st) batch) as (Hc & _).
    rewrite Hc. by case_decide.
Qed.

Lemma run_absent (evs : list event) (st st' : System) (id : UUID) :
  run st evs = Some st' →
  Forall (λ e, ev_stores_to id e = false) evs →
  cache (store st) !! id = None →
  cache (store st') !! id = None.
Proof.
  revert st. induction evs as [|e evs IH]; intros st Hrun Hall Habs;
    simpl in Hrun.
  - by injection Hrun as <-.
  - destruct (step st e) as [st1|] eqn:He; [|done].
    inversion Hall; subst. eauto using step_absent.
Qed.

(** ** Lemmas on sequential histories *)

Lemma apply_op_ttl (p : BytesTrxStore) (o : op) : ttl (apply_op p o) = ttl p.
Proof. destruct o; simpl; try done. apply cleanupExpired_spec. Qed.

Lemma run_ops_ttl (os : list op) (p : BytesTrxStore) :
  ttl (run_ops p os) = ttl p.
Proof.
  revert p. induction os as [|o os IH]; intros p; [done|].
  unfold run_ops in *. simpl. by rewrite IH, apply_op_ttl.
Qed.

Lemma apply_op_absent (p : BytesTrxStore) (o : op) (id : UUID) :
  stores_to id o = false →
  cache p !! id = None → cache (apply_op p o) !! id = None.
Proof.
  intros Hne Habs. destruct o as [trx b now| |clk]; simpl in *; [|done|].
  - apply bool_decide_eq_false in Hne. by rewrite lookup_insert_ne.
  - destruct (cleanupExpired_spec p clk) as (Hc & _).
    rewrite Hc. by case_decide.
Qed.

Lemma run_ops_absent (os : list op) (p : BytesTrxStore) (id : UUID) :
  Forall (λ o, stores_to id o = false) os →
  cache p !! id = None → cache (run_ops p os) !! id = None.
Proof.
  revert p. induction os as [|o os IH]; intros p Hall Habs; [done|].
  inversion Hall; subst. unfold run_ops in *. simpl.
  apply IH; [done|]. by apply apply_op_absent.
Qed.

(** An entry survives the operations that neither store to its identifier
    nor sweep it at an age beyond the TTL. *)
Lemma run_ops_keep (os : list op) (p : BytesTrxStore) (id : UUID)
    (b : ByteSlice) (t0 : time.Time) :
  cache p !! id = Some b →
  cacheExpire p !! id = Some t0 →
  Forall (λ o, stores_to id o = false) os →
  Forall (sweep_within id t0 (ttl p)) os →
  cache (run_ops p os) !! id = Some b
  ∧ cacheExpire (run_ops p os) !! id = Some t0.
Proof.
  revert p. induction os as [|o os IH]; intros p Hc He Hns Hin; [done|].
  inversion Hns as [|? ? Hne Hns']; inversion Hin as [|? ? Ho Hin']; subst.
  unfold run_ops in *. simpl.
  assert (cache (apply_op p o) !! id = Some b
          ∧ cacheExpire (apply_op p o) !! id = Some t0) as [Hc' He'].
  { destruct o as [trx b' now| |clk]; simpl in *; [|done|].
    - apply bool_decide_eq_false in Hne. by rewrite !lookup_insert_ne.
    - destruct (cleanupExpired_keep p clk id) as [H1 H2].
      + intros t Hl. assert (t = t0) as -> by congruence.
        pose proof (Since_le (clk id) t0 (proj1 Ho)). lia.
      + by rewrite H1, H2. }
  apply IH; try done. by rewrite apply_op_ttl.
Qed.

(** Until such a sweep, the entry is either as stored or already gone. *)
Lemma run_ops_stored_or_gone (os : list op) (p : BytesTrxStore) (id : UUID)
    (t0 : time.Time) :
  Forall (λ o, stores_to id o = false) os →
  cache p !! id = None ∨ cacheExpire p !! id = Some t0 →
  cache (run_ops p os) !! id = None
  ∨ cacheExpire (run_ops p os) !! id = Some t0.
Proof.
  revert p. induction os as [|o os IH]; intros p Hns Hp; [done|].
  inversion Hns as [|? ? Hne Hns']; subst.
  unfold run_ops in *. simpl. apply IH; [done|].
  destruct Hp as [Habs|He]; [left; by apply apply_op_absent|].
  destruct o as [trx b' now| |clk]; simpl in *; [|by right|].
  - right. apply bool_decide_eq_false in Hne. by rewrite lookup_insert_ne.
  - destruct (cleanupExpired_spec p clk) as (Hc' & He' & _).
    rewrite Hc', He'. case_decide; eauto.
Qed.

(** Expiry over sequential histories, where every sweep is a complete
    run of [cleanupExpired]: with TTL [d], after [Store(id, bytes)] at time
    [t0] and with no later [Store] for [id], a [Check(id)] returns [bytes]
    when every sweep before it read the clock no later than [t0 + d], and
    returns absence once some sweep has run at which the age of the entry
    exceeded [d]. *)
Lemma sequential_expiry (p : BytesTrxStore) (id : UUID) (bytes : ByteSlice)
    (t0 : time.Time) (ops : list op) :
  Forall (λ o, stores_to id o = false) ops →
  (Forall (sweep_within id t0 (ttl p)) ops →
   Check (run_ops (Store p id bytes t0) ops) id = bytes)
  ∧ (Exists (sweep_past id t0 (ttl p)) ops →
     Check (run_ops (Store p id bytes t0) ops) id = Nil).
Proof.
  intros Hns. split.
  - intros Hin. unfold Check.
    rewrite (proj1 (run_ops_keep ops (Store p id bytes t0) id bytes t0
                      ltac:(simpl; apply lookup_insert_eq)
                      ltac:(simpl; apply lookup_insert_eq) Hns Hin)).
    done.
  - intros Hex. apply Exists_exists in Hex as (o & Hin & Hpast).
    apply list_elem_of_split in Hin as (os1 & os2 & ->).
    apply Forall_app in Hns as [Hns1 Hns2].
    inversion Hns2 as [|? ? _ Hns2']; subst.
    destruct o as [| |clk]; simpl in Hpast; try done.
    unfold Check, run_ops. rewrite foldl_app. simpl.
    fold (run_ops (Store p id bytes t0) os1).
    set (p1 := run_ops (Store p id bytes t0) os1).
    assert (cache (cleanupExpired p1 clk) !! id = None) as Hgone.
    { destruct (run_ops_stored_or_gone os1 (Store p id bytes t0) id t0 Hns1)
        as [Habs|He].
      - right. simpl. apply lookup_insert_eq.
      - destruct (cleanupExpired_spec p1 clk) as (Hc & _).
        rewrite Hc. fold p1 in Habs. by case_decide.
      - apply (cleanupExpired_drop p1 clk id t0 He).
        unfold p1. by rewrite run_ops_ttl. }
    pose proof (run_ops_absent os2 _ id Hns2' Hgone) as Hend.
    unfold run_ops in Hend. by rewrite Hend.
Qed.

Example sequential_expiry_example :
  let ops_early := [OpSweep (λ _, 104); OpCheck 1%N;
                    OpStore 2%N (Bytes [x62]) 105; OpSweep (λ _, 110)] in
  let ops_late := [OpSweep (λ _, 104); OpSweep (λ _, 111); OpCheck 1%N] in
  Check (run_ops (Store (emptyStore 10) 1%N (Bytes [x61]) 100) ops_early) 1%N
    = Bytes [x61]
  ∧ Check (run_ops (Store (emptyStore 10) 1%N (Bytes [x61]) 100) ops_late) 1%N
    = Nil.
Proof.
  intros ops_early ops_late. split.
  - apply (sequential_expiry (emptyStore 10) 1%N (Bytes [x61]) 100 ops_early).
    + repeat constructor.
    + repeat constructor; simpl; lia.
  - apply (sequential_expiry (emptyStore 10) 1%N (Bytes [x61]) 100 ops_late).
    + repeat constructor.
    + apply Exists_cons_tl, Exists_cons_hd. vm_compute. reflexivity.
Qed.

(** ** Lemmas on the sweeper goroutine *)

(** The goroutine steps only from the head of its loop, and its write
    phase only from between the phases: once returned it does nothing. *)
Lemma step_returned (st : System) (e : event) (st' : System) :
  at_ (sweeper st) = Returned →
  step st e = Some st' →
  at_ (sweeper st') = Returned
  ∧ match e with
    | EvStore trx result now => store st' = Store (store st) trx result now
    | _ => store st' = store st
    end.
Proof.
  destruct st as [p [c tk stp a]], e; simpl; intros -> Hs.
  - by injection Hs as <-.
  - by injection Hs as <-.
  - destruct stp; [done|]. by injection Hs as <-.
  - destruct c; [|done]. by injection Hs as <-.
  - done.
  - done.
  - done.
Qed.

Lemma run_returned (evs : list event) (st st' : System) :
  at_ (sweeper st) = Returned →
  run st evs = Some st' →
  at_ (sweeper st') = Returned
  ∧ deleted st evs = ∅
  ∧ ttl (store st') = ttl (store st)
  ∧ ∀ id, Forall (λ e, ev_stores_to id e = false) evs →
          cache (store st') !! id = cache (store st) !! id
          ∧ cacheExpire (store st') !! id = cacheExpire (store st) !! id.
Proof.
  revert st. induction evs as [|e evs IH]; intros st Hret Hrun;
    simpl in Hrun |- *.
  - injection Hrun as <-. done.
  - destruct (step st e) as [st1|] eqn:He; [|done].
    destruct (step_returned st e st1 Hret He) as [Hret1 Hst1].
    destruct (IH st1 Hret1 Hrun) as (H1 & H2 & H3 & H4).
    split; [done|]. split.
    { rewrite Hret. by destruct e. }
    split.
    { rewrite H3. destruct e; by rewrite Hst1. }
    intros id Hall. inversion Hall as [|? ? Hne Hall']; subst.
    destruct (H4 id Hall') as [Hc Hx]. rewrite Hc, Hx.
    destruct e; try (by rewrite Hst1).
    rewrite Hst1. simpl in *. apply bool_decide_eq_false in Hne.
    by rewrite !lookup_insert_ne.
Qed.

(** With the nil context nothing can stop the loop or its ticker. *)
Lemma step_nil_ctx (st : System) (e : event) (st' : System) :
  ctx (sweeper st) = None ∧ at_ (sweeper st) ≠ Returned
    ∧ tickerStopped (sweeper st) = false →
  step st e = Some st' →
  ctx (sweeper st') = None ∧ at_ (sweeper st') ≠ Returned
    ∧ tickerStopped (sweeper st') = false.
Proof.
  destruct st as [p [c tk stp a]], e; simpl; intros (-> & Ha & ->) Hs.
  - by injection Hs as <-.
  - by injection Hs as <-.
  - by injection Hs as <-.
  - done.
  - destruct a; try done. destruct tk; [|done]. by injection Hs as <-.
  - destruct a; try done. by injection Hs as <-.
  - by destruct a.
Qed.

(** ** Lemmas on entries under interleaving *)

Lemma deleted_cons (st : System) (e : event) (evs : list event)
    (st1 : System) :
  step st e = Some st1 →
  deleted st (e :: evs) =
    match e, at_ (sweeper st) with
    | EvDelete, Scanned batch => batch ∪ deleted st1 evs
    | _, _ => deleted st1 evs
    end.
Proof. intros Hs. simpl. by rewrite Hs. Qed.

(** A step keeps an entry that it neither overwrites nor deletes. *)
Lemma step_keep (st : System) (e : event) (st' : System) (id : UUID) :
  step st e = Some st' →
  ev_stores_to id e = false →
  (∀ batch, e = EvDelete → at_ (sweeper st) = Scanned batch → id ∉ batch) →
  cache (store st') !! id = cache (store st) !! id
  ∧ cacheExpire (store st') !! id = cacheExpire (store st) !! id
  ∧ ttl (store st') = ttl (store st).
Proof.
  intros Hs Hne Hbatch. apply step_store in Hs.
  destruct e; try (by rewrite Hs).
  - rewrite Hs. simpl in *. apply bool_decide_eq_false in Hne.
    by rewrite !lookup_insert_ne.
  - destruct Hs as (batch & Hat & ->).
    destruct (deletePhase_spec (store st) batch) as (Hc & He & Ht).
    rewrite Hc, He, Ht, !decide_False; eauto.
Qed.

(** An entry stays as it is through the events that neither store to its
    identifier nor delete it. *)
Lemma run_keep (evs : list event) (st st' : System) (id : UUID) :
  run st evs = Some st' →
  Forall (λ e, ev_stores_to id e = false) evs →
  id ∉ deleted st evs →
  cache (store st') !! id = cache (store st) !! id
  ∧ cacheExpire (store st') !! id = cacheExpire (store st) !! id
  ∧ ttl (store st') = ttl (store st).
Proof.
  revert st. induction evs as [|e evs IH]; intros st Hrun Hall Hdel.
  - simpl in Hrun. by injection Hrun as <-.
  - simpl in Hrun. destruct (step st e) as [st1|] eqn:He; [|done].
    rewrite (deleted_cons st e evs st1 He) in Hdel.
    inversion Hall as [|? ? Hne Hall']; subst.
    destruct (step_keep st e st1 id He Hne) as (H1 & H2 & H3).
    { intros batch -> Hat. rewrite Hat in Hdel. set_solver. }
    destruct (IH st1 Hrun Hall') as (H4 & H5 & H6).
    { destruct e; try done. destruct (at_ (sweeper st)); try done.
      set_solver. }
    by rewrite H4, H5, H6.
Qed.


(** Where a step leaves the goroutine. *)
Lemma step_at (st : System) (e : event) (st' : System) :
  step st e = Some st' →
  at_ (sweeper st') =
    match e with
    | EvScan clk => Scanned (entriesForRemove (store st) clk)
    | EvDelete => AtLoop
    | EvDone => Returned
    | _ => at_ (sweeper st)
    end.
Proof.
  destruct st as [p [c tk stp a]], e; simpl; intros Hs.
  - by injection Hs as <-.
  - by injection Hs as <-.
  - destruct stp; [done|]. by injection Hs as <-.
  - destruct c; [|done]. by injection Hs as <-.
  - destruct a; try done. destruct tk; [|done]. by injection Hs as <-.
  - destruct a; try done. by injection Hs as <-.
  - destruct a; try done. destruct c as [[[]]|]; try done.
    by injection Hs as <-.
Qed.

(** A sweeper with no stale batch for [id] does not delete the entry of
    [id] while each of its read phases finds the entry within its TTL. *)
Lemma run_young_not_deleted (evs : list event) (st st' : System)
    (id : UUID) (t0 : time.Time) :
  run st evs = Some st' →
  Forall (λ e, ev_stores_to id e = false) evs →
  Forall (scan_within id t0 (ttl (store st))) evs →
  cacheExpire (store st) !! id = Some t0 →
  no_stale_batch id st →
  id ∉ deleted st evs.
Proof.
  revert st. induction evs as [|e evs IH];
    intros st Hrun Hns Hin He Hfresh; [set_solver|].
  simpl in Hrun. destruct (step st e) as [st1|] eqn:Hstep; [|done].
  rewrite (deleted_cons st e evs st1 Hstep).
  inversion Hns as [|? ? Hne Hns']; inversion Hin as [|? ? Ho Hin']; subst.
  destruct (step_keep st e st1 id Hstep Hne) as (_ & H2 & H3).
  { intros batch -> Hat. by apply Hfresh. }
  assert (id ∉ deleted st1 evs) as Hrest.
  { apply IH; try done; [by rewrite H3|by rewrite H2|].
    intros batch Hat. rewrite (step_at st e st1 Hstep) in Hat.
    destruct e; try (by apply Hfresh); try done.
    injection Hat as <-.
    rewrite elem_of_entriesForRemove. intros (t & Hl & Hage).
    assert (t = t0) as -> by congruence.
    simpl in Ho. pose proof (Since_le (clk id) t0 (proj1 Ho)). lia. }
  destruct e; try done.
  destruct (at_ (sweeper st)) eqn:Hat; try done.
  specialize (Hfresh _ Hat). set_solver.
Qed.



(** In every interleaving, a stored result is served for as long as its
    age at each read phase is within the TTL, provided the sweeper holds
    no batch with the identifier, collected before the [Store] and not yet
    deleted. *)
Lemma expiry_without_stale_batch (st : System) (id : UUID) (b : ByteSlice)
    (t0 : time.Time) (evs : list event) (st' : System) :
  no_stale_batch id st →
  run (with_store st (Store (store st) id b t0)) evs = Some st' →
  Forall (λ e, ev_stores_to id e = false) evs →
  Forall (scan_within id t0 (ttl (store st))) evs →
  Check (store st') id = b.
Proof.
  intros Hfresh Hrun Hns Hin.
  set (st0 := with_store st (Store (store st) id b t0)) in *.
  assert (id ∉ deleted st0 evs) as Hdel.
  { apply (run_young_not_deleted evs st0 st' id t0); try done.
    simpl. apply lookup_insert_eq. }
  destruct (run_keep evs st0 st' id Hrun Hns Hdel) as (Hc & _).
  unfold Check. rewrite Hc. simpl. by rewrite lookup_insert_eq.
Qed.

(** ** Lemmas on the lock *)

Lemma count_insert (f : thread → bool) (ts : list thread) (i : nat)
    (t t' : thread) :
  ts !! i = Some t →
  (count f (<[i := t']> ts) + (if f t then 1 else 0)
   = count f ts + (if f t' then 1 else 0))%nat.
Proof.
  revert i. induction ts as [|a ts IH]; intros [|i] Hl; simpl in *;
    try done.
  - injection Hl as ->. lia.
  - specialize (IH i Hl). lia.
Qed.

Lemma count_zero (f : thread → bool) (ts : list thread) (i : nat)
    (t : thread) :
  count f ts = 0%nat → ts !! i = Some t → f t = false.
Proof.
  revert i. induction ts as [|a ts IH]; intros [|i] Hc Hl; simpl in *;
    try done.
  - injection Hl as ->. destruct (f t); [lia|done].
  - apply (IH i); [|done]. destruct (f a); lia.
Qed.

Lemma count_one (f : thread → bool) (ts : list thread) (i j : nat)
    (t t2 : thread) :
  count f ts = 1%nat → ts !! i = Some t → f t = true →
  ts !! j = Some t2 → j ≠ i → f t2 = false.
Proof.
  revert i j. induction ts as [|a ts IH]; intros [|i] [|j] Hc Hi Hf Hj Hne;
    simpl in *; try done.
  - injection Hi as ->. rewrite Hf in Hc.
    apply (count_zero f ts j); [lia|done].
  - injection Hj as ->. destruct (f t2) eqn:Hf2; [|done].
    assert (count f ts = 0)%nat as Hz by lia.
    rewrite (count_zero f ts i t Hz Hi) in Hf. done.
  - apply (IH i j); try done; [|lia]. destruct (f a); [|lia].
    exfalso.
    assert (count f ts = 0)%nat as Hz by lia.
    rewrite (count_zero f ts i t Hz Hi) in Hf. done.
Qed.

Lemma count_pos (f : thread → bool) (ts : list thread) (i : nat)
    (t : thread) :
  ts !! i = Some t → ((if f t then 1 else 0) ≤ count f ts)%nat.
Proof.
  revert i. induction ts as [|a ts IH]; intros [|i] Hl; simpl in *;
    try done.
  - injection Hl as ->. lia.
  - specialize (IH i Hl). lia.
Qed.

Lemma in_progress_reader (t : thread) (p q : BytesTrxStore) :
  holds_write t = false → in_progress t p → in_progress t q.
Proof. by destruct t. Qed.

Lemma keys_agree_close_insert (trx : UUID) (now : time.Time)
    (p : BytesTrxStore) :
  keys_agree_but trx p → is_Some (cache p !! trx) →
  keys_agree {| cache := cache p;
                cacheExpire := <[trx := now]> (cacheExpire p);
                ttl := ttl p |}.
Proof.
  intros Hbut Hin i. simpl. destruct (decide (trx = i)) as [->|Hne].
  - rewrite lookup_insert_eq. split; eauto.
  - rewrite lookup_insert_ne by done. by apply Hbut.
Qed.

Lemma keys_agree_close_delete (id : UUID) (p : BytesTrxStore) :
  keys_agree_but id p → cache p !! id = None →
  keys_agree {| cache := cache p;
                cacheExpire := delete id (cacheExpire p);
                ttl := ttl p |}.
Proof.
  intros Hbut Hout i. simpl. destruct (decide (id = i)) as [->|Hne].
  - rewrite lookup_delete_eq, Hout. split; intros [? ?]; done.
  - rewrite lookup_delete_ne by done. by apply Hbut.
Qed.

Lemma keys_agree_open_insert (trx : UUID) (result : ByteSlice)
    (p : BytesTrxStore) :
  keys_agree p →
  keys_agree_but trx {| cache := <[trx := result]> (cache p);
                        cacheExpire := cacheExpire p; ttl := ttl p |}
  ∧ is_Some (<[trx := result]> (cache p) !! trx).
Proof.
  intros Hk. split.
  - intros i Hne. simpl. rewrite lookup_insert_ne by done. apply Hk.
  - rewrite lookup_insert_eq. eauto.
Qed.

Lemma keys_agree_open_delete (id : UUID) (p : BytesTrxStore) :
  keys_agree p →
  keys_agree_but id {| cache := delete id (cache p);
                       cacheExpire := cacheExpire p; ttl := ttl p |}
  ∧ delete id (cache p) !! id = None.
Proof.
  intros Hk. split.
  - intros i Hne. simpl. rewrite lookup_delete_ne by done. apply Hk.
  - apply lookup_delete_eq.
Qed.

(** Every statement keeps what the lock maintains. *)
Lemma pstep_lock_inv (s : Program) (who : nat) (clk : UUID → time.Time)
    (s' : Program) :
  lock_inv s → pstep s who clk = Some s' → lock_inv s'.
Proof.
  intros (Hr & Hw & Hk & Hp) Hs. unfold pstep in Hs.
  destruct (threads s !! who) as [t|] eqn:Ht; simpl in Hs; [|done].
  destruct (tstep clk t (mem s) (cacheLock s)) as [[[t' p'] m']|] eqn:Hts;
    simpl in Hs; [|done].
  injection Hs as <-.
  pose proof (count_insert holds_read _ _ t t' Ht) as Cr.
  pose proof (count_insert holds_write _ _ t t' Ht) as Cw.
  pose proof (Hp who t Ht) as Hmine.
  pose proof (count_pos holds_write _ _ t Ht) as Cp.
  pose proof (lookup_lt_Some _ _ _ Ht) as Hlen.
  assert (∀ j t2, j ≠ who → threads s !! j = Some t2 →
                  holds_write t = true → holds_write t2 = false) as Halone.
  { intros j t2 Hne Hj Hwt. destruct (writer (cacheLock s)).
    - destruct Hw as [Hw1 _]. by apply (count_one _ _ who j t t2 Hw1 Ht).
    - by rewrite (count_zero _ _ who t Hw Ht) in Hwt. }
  destruct s as [p [r w] ts]; simpl in *.
  assert (∀ P : thread → Prop,
            P t' → (∀ j t2, j ≠ who → ts !! j = Some t2 → P t2) →
            ∀ j t2, <[who := t']> ts !! j = Some t2 → P t2) as Hall.
  { intros P Hnew Hold j t2 Hj. destruct (decide (j = who)) as [->|Hne].
    - rewrite list_lookup_insert_eq in Hj by done. by injection Hj as <-.
    - rewrite list_lookup_insert_ne in Hj by done. eauto. }
  unfold lock_inv; simpl.
  destruct t; simpl in Hts, Cr, Cw, Cp, Hmine;
    unfold RLock, Lock, RUnlock, Unlock in Hts; simpl in Hts;
    repeat match type of Hts with
           | context [if ?b then _ else _] => destruct b eqn:?
           | context [match ?n with O => _ | S _ => _ end] => destruct n eqn:?
           | context [match ?l with [] => _ | _ :: _ => _ end] =>
               destruct l eqn:?
           end;
    simpl in Hts; simplify_eq; simpl in *.
  all: try (split; [lia|]).
  all: try (split; [repeat case_match; lia|]).
  all: split;
    [ intros Hz; first [ exact Hmine | apply Hk; lia | exfalso; lia ]
    | apply Hall;
      [ simpl;
        first [ exact I
              | exact Hmine
              | apply Hk; lia
              | by apply keys_agree_open_insert
              | destruct Hmine; by apply keys_agree_close_insert
              | by apply keys_agree_open_delete
              | destruct Hmine; by apply keys_agree_close_delete ]
      | intros j t2 Hne Hj;
        first [ exact (Hp j t2 Hj)
              | apply (in_progress_reader t2 p);
                [ by apply (Halone j t2 Hne Hj) | exact (Hp j t2 Hj) ] ] ] ].
Qed.

Lemma prun_lock_inv (sched : list (nat * (UUID → time.Time)))
    (s s' : Program) :
  lock_inv s → prun s sched = Some s' → lock_inv s'.
Proof.
  revert s. induction sched as [|[who clk] sched IH]; intros s Hinv Hrun;
    simpl in Hrun.
  - by injection Hrun as <-.
  - destruct (pstep s who clk) as [s1|] eqn:Hs; [|done].
    eauto using pstep_lock_inv.
Qed.

Lemma count_at_entry (ts : list thread) :
  Forall (λ t, at_entry t = true) ts →
  count holds_read ts = 0%nat ∧ count holds_write ts = 0%nat.
Proof.
  induction 1 as [|t ts Ht _ [IHr IHw]]; [done|].
  simpl. rewrite IHr, IHw. by destruct t.
Qed.

Lemma lock_inv_start (d : time.Duration) (ts : list thread) :
  Forall (λ t, at_entry t = true) ts → lock_inv (program_start d ts).
Proof.
  intros Hts. destruct (count_at_entry ts Hts) as [Hr Hw].
  unfold lock_inv; simpl. rewrite Hr, Hw.
  repeat split; try done; try apply keys_agree_emptyStore.
  intros j t Hj. rewrite Forall_lookup in Hts.
  specialize (Hts j t Hj). by destruct t.
Qed.

(** Mutual exclusion, and what readers can see: while a goroutine holds
    the read lock, none is inside a write and the key sets agree. *)
Lemma lock_inv_reader (s : Program) (j : nat) (t : thread) :
  lock_inv s → threads s !! j = Some t → holds_read t = true →
  writer (cacheLock s) = false
  ∧ count holds_write (threads s) = 0%nat
  ∧ keys_agree (mem s).
Proof.
  intros (Hr & Hw & Hk & _) Hj Ht.
  assert (1 ≤ count holds_read (threads s))%nat as Hpos.
  { clear -Hj Ht. revert j Hj.
    induction (threads s) as [|a ts IH]; intros [|j] Hj; simpl in *;
      try done.
    - injection Hj as ->. rewrite Ht. lia.
    - specialize (IH j Hj). lia. }
  destruct (writer (cacheLock s)).
  - destruct Hw as [_ Hz]. lia.
  - eauto.
Qed.

Lemma lock_inv_unlocked (s : Program) :
  lock_inv s → writer (cacheLock s) = false → keys_agree (mem s).
Proof. intros (_ & Hw & Hk & _) Hfree. rewrite Hfree in Hw. eauto. Qed.

(** ** The methods run alone *)

Lemma trun_add (n k : nat) (clk : UUID → time.Time) (t : thread)
    (p : BytesTrxStore) (m : RWMutex) :
  trun (n + k) clk t p m =
    let r := trun n clk t p m in trun k clk r.1.1 r.1.2 r.2.
Proof.
  revert t p m. induction n as [|n IH]; intros t p m; simpl; [done|].
  destruct (tstep clk t p m) as [[[t' p'] m']|] eqn:Hs; [apply IH|].
  simpl. destruct k as [|k]; simpl; [done|]. by rewrite Hs.
Qed.

Lemma store_eq (p q : BytesTrxStore) :
  (∀ id, cache p !! id = cache q !! id) →
  (∀ id, cacheExpire p !! id = cacheExpire q !! id) →
  ttl p = ttl q → p = q.
Proof.
  destruct p as [c e d], q as [c' e' d']; simpl; intros Hc He ->.
  f_equal; by apply map_eq.
Qed.

Lemma foldl_deleteEntry_spec (todo : list N) (p : BytesTrxStore) :
  (∀ id, cache (foldl deleteEntry p todo) !! id =
           if decide (id ∈ todo) then None else cache p !! id)
  ∧ (∀ id, cacheExpire (foldl deleteEntry p todo) !! id =
           if decide (id ∈ todo) then None else cacheExpire p !! id)
  ∧ ttl (foldl deleteEntry p todo) = ttl p.
Proof.
  revert p. induction todo as [|x todo IH]; intros p; simpl.
  - repeat split; intros id; by rewrite decide_False by apply not_elem_of_nil.
  - destruct (IH (deleteEntry p x)) as (Hc & He & Ht).
    repeat split; [| |by rewrite Ht].
    + intros id. rewrite Hc. simpl.
      destruct (decide (id = x)) as [->|Hne].
      * rewrite lookup_delete_eq.
        rewrite (decide_True (P := x ∈ x :: todo)) by apply list_elem_of_here.
        by case_decide.
      * rewrite lookup_delete_ne by done.
        repeat case_decide; try done; set_solver.
    + intros id. rewrite He. simpl.
      destruct (decide (id = x)) as [->|Hne].
      * rewrite lookup_delete_eq.
        rewrite (decide_True (P := x ∈ x :: todo)) by apply list_elem_of_here.
        by case_decide.
      * rewrite lookup_delete_ne by done.
        repeat case_decide; try done; set_solver.
Qed.

Lemma foldl_deleteEntry_elements (p : BytesTrxStore) (batch : gset N) :
  foldl deleteEntry p (elements batch) = deleteEntries p batch.
Proof.
  destruct (foldl_deleteEntry_spec (elements batch) p) as (Hc & He & Ht).
  destruct (deleteEntries_spec p batch) as (Hc' & He' & Ht').
  apply store_eq.
  - intros id. rewrite Hc, Hc'. repeat case_decide; set_solver.
  - intros id. rewrite He, He'. repeat case_decide; set_solver.
  - by rewrite Ht, Ht'.
Qed.

(** The delete loop, two statements for every collected identifier. *)
Lemma trun_delete_loop (clk : UUID → time.Time) (todo : list N)
    (p : BytesTrxStore) (m : RWMutex) :
  trun (2 * length todo + 1) clk (Sweep_delete_cache todo) p m =
    (Sweep_Unlock, foldl deleteEntry p todo, m).
Proof.
  revert p. induction todo as [|x todo IH]; intros p; [done|].
  replace (2 * length (x :: todo) + 1)%nat
    with (S (S (2 * length todo + 1))) by (simpl; lia).
  simpl trun at 1. cbn [tstep]. simpl trun at 1. cbn [tstep].
  rewrite IH. done.
Qed.

(** Run alone, from the free lock, the body of each method does what the
    atomic step of the method does, and leaves the lock free. *)
Lemma Check_alone (clk : UUID → time.Time) (trx : UUID) (p : BytesTrxStore) :
  trun 3 clk (Check_RLock trx) p unlocked =
    (Check_return (Check p trx), p, unlocked).
Proof. reflexivity. Qed.

Lemma Store_alone (clk : UUID → time.Time) (trx : UUID) (result : ByteSlice)
    (p : BytesTrxStore) :
  trun 4 clk (Store_Lock trx result) p unlocked =
    (Store_return, Store p trx result (clk trx), unlocked).
Proof. reflexivity. Qed.

Lemma cleanupExpired_alone (clk : UUID → time.Time) (p : BytesTrxStore) :
  ∃ n, trun n clk Sweep_RLock p unlocked =
         (Sweep_return, cleanupExpired p clk, unlocked).
Proof.
  unfold cleanupExpired, deletePhase.
  set (batch := entriesForRemove p clk).
  destruct (decide (0 < size batch)%nat) as [Hpos|Hzero].
  - exists (4 + ((2 * length (elements batch) + 1) + 1))%nat.
    rewrite trun_add.
    assert (trun 4 clk Sweep_RLock p unlocked =
              (Sweep_delete_cache (elements batch), p,
               {| readers := 0; writer := true |})) as ->.
    { simpl. fold batch. by rewrite decide_True. }
    cbn zeta. cbn [fst snd]. rewrite trun_add, trun_delete_loop.
    cbn zeta. cbn [fst snd]. simpl.
    by rewrite foldl_deleteEntry_elements.
  - exists 4%nat. simpl. fold batch. by rewrite decide_False.
Qed.

(** No statement of [Check] writes to the store. *)
Lemma pstep_Check_mem (s : Program) (who : nat) (clk : UUID → time.Time)
    (s' : Program) (t : thread) :
  threads s !! who = Some t → runs_Check t = true →
  pstep s who clk = Some s' → mem s' = mem s.
Proof.
  intros Ht Hc. unfold pstep. rewrite Ht. simpl.
  destruct t; try done; simpl; unfold RLock.
  - destruct (writer (cacheLock s)); simpl; [done|]. by intros [= <-].
  - by intros [= <-].
  - by intros [= <-].
Qed.

(** ** The test of the repository *)

Example TestNewTRXStore (trx : UUID) :
  let ttl := 10 * time.Millisecond in
  Check (store (NewBytesTRXStore ttl)) trx = Nil
  ∧ bytes_Equal
      (Check (Store (emptyStore ttl) trx (Bytes [x74; x65; x73; x74]) 0) trx)
      (Bytes [x74; x65; x73; x74]) = true
  ∧ ∃ st, run (NewBytesTRXStore ttl) (TestNewTRXStore_trace trx) = Some st
          ∧ Check (store st) trx = Nil.
Proof.
  intros d. split; [done|]. split.
  { unfold Check; simpl. by rewrite lookup_insert_eq. }
  pose (p := Store (emptyStore d) trx (Bytes [x74; x65; x73; x74]) 0).
  pose (clk := λ _ : N, sleepBetweenExpireCheck).
  assert (cache (cleanupExpired p clk) !! trx = None) as Hgone.
  { apply (cleanupExpired_drop p clk trx 0).
    - simpl. apply lookup_insert_eq.
    - vm_compute. reflexivity. }
  destruct (run (NewBytesTRXStore d) (TestNewTRXStore_trace trx))
    as [st|] eqn:Hrun; [|simpl in Hrun; discriminate].
  exists st. split; [done|].
  change (TestNewTRXStore_trace trx)
    with ([EvCheck trx; EvStore trx (Bytes [x74; x65; x73; x74]) 0;
           EvCheck trx; EvTick; EvScan clk; EvDelete]
          ++ [EvTick; EvScan (λ _, 2 * sleepBetweenExpireCheck); EvDelete;
              EvCheck trx]) in Hrun.
  rewrite run_app in Hrun.
  destruct (run (NewBytesTRXStore d)
              [EvCheck trx; EvStore trx (Bytes [x74; x65; x73; x74]) 0;
               EvCheck trx; EvTick; EvScan clk; EvDelete])
    as [st1|] eqn:Hrun1; [|done].
  assert (store st1 = cleanupExpired p clk) as Hst1.
  { simpl in Hrun1. by injection Hrun1 as <-. }
  change (run st1 [EvTick; EvScan (λ _, 2 * sleepBetweenExpireCheck);
                   EvDelete; EvCheck trx] = Some st) in Hrun.
  unfold Check.
  rewrite (run_absent _ _ st trx Hrun); [done| |by rewrite Hst1].
  repeat constructor.
Qed.

(** * The properties of the store *)

(** C1: for every identifier and every byte sequence, [Check] right after
    [Store] returns exactly the stored bytes; so do the two bodies run
    one after the other, statement by statement, from the free lock. *)
Theorem C1_check_after_store (p : BytesTrxStore) (id : UUID)
    (bytes : ByteSlice) (now : time.Time) :
  Check (Store p id bytes now) id = bytes
  ∧ ∀ clk : UUID → time.Time,
      clk id = now →
      let r := trun 4 clk (Store_Lock id bytes) p unlocked in
      trun 3 clk (Check_RLock id) r.1.2 r.2 =
        (Check_return bytes, Store p id bytes now, unlocked).
Proof.
  assert (Check (Store p id bytes now) id = bytes) as Hcheck.
  { unfold Check, Store; simpl. by rewrite lookup_insert_eq. }
  split; [exact Hcheck|].
  intros clk Hnow r. unfold r. rewrite Store_alone. cbn [fst snd].
  by rewrite Check_alone, Hnow, Hcheck.
Qed.

Lemma C1_check_after_store_witness :
  let p := Store (emptyStore 10) 2%N (Bytes [x61]) 0 in
  let r := trun 4 (λ _, 7) (Store_Lock 1%N (Bytes [x74; x65])) p unlocked in
  trun 3 (λ _, 7) (Check_RLock 1%N) r.1.2 r.2 =
    (Check_return (Bytes [x74; x65]), Store p 1%N (Bytes [x74; x65]) 7,
     unlocked).
Proof.
  intros p.
  apply (C1_check_after_store p 1%N (Bytes [x74; x65]) 7).
  reflexivity.
Defined.

(** C2: the two mappings have the same key set after construction, and
    [Store] and the write phase of the sweep keep it so; hence an
    identifier is in one mapping exactly when it is in the other in every
    state that the system reaches, whatever the interleaving of callers
    and sweeper. Statement by statement the key sets differ only inside
    a write, by the one key being written, and the write lock is then
    held: they agree whenever the write lock is free, so for every
    goroutine that holds the read lock. *)
Theorem C2_key_sets_agree :
  (∀ d : time.Duration, keys_agree (emptyStore d))
  ∧ (∀ p id b now, keys_agree p → keys_agree (Store p id b now))
  ∧ (∀ p batch, keys_agree p → keys_agree (deletePhase p batch))
  ∧ (∀ p clk, keys_agree p → keys_agree (cleanupExpired p clk))
  ∧ (∀ c d evs st,
       run (NewBytesTRXStoreWithContext c d) evs = Some st →
       keys_agree (store st)
       ∧ dom (cache (store st)) = dom (cacheExpire (store st)))
  ∧ (∀ d ts sched s,
       Forall (λ t, at_entry t = true) ts →
       prun (program_start d ts) sched = Some s →
       (writer (cacheLock s) = false → keys_agree (mem s))
       ∧ (∀ j t, threads s !! j = Some t → holds_read t = true →
                 keys_agree (mem s))).
Proof.
  split; [|split; [|split; [|split; [|split]]]].
  - apply keys_agree_emptyStore.
  - apply keys_agree_Store.
  - apply keys_agree_deletePhase.
  - intros p clk. apply keys_agree_deletePhase.
  - intros c d evs st Hrun.
    assert (keys_agree (store st)) as Hk.
    { eapply (run_invariant (λ s, keys_agree (store s)) keys_agree_step);
        [|exact Hrun]. apply keys_agree_emptyStore. }
    split; [done|]. apply set_eq. intros id. rewrite !elem_of_dom. apply Hk.
  - intros d ts sched s Hts Hrun.
    pose proof (prun_lock_inv sched _ s (lock_inv_start d ts Hts) Hrun)
      as Hinv.
    split; [by apply lock_inv_unlocked|].
    intros j t Hj Hr. by apply (lock_inv_reader s j t).
Qed.

Lemma C2_key_sets_agree_witness :
  let evs := [EvStore 7%N (Bytes [x74; x65]) 0; EvStore 8%N Nil 5; EvTick;
              EvScan (λ _, 12); EvStore 7%N (Bytes []) 12; EvDelete] in
  let ts := [Store_Lock 7%N (Bytes [x74]); Check_RLock 7%N; Sweep_RLock] in
  let sched := [(0%nat, λ _ : N, 3); (0%nat, λ _ : N, 3);
                (0%nat, λ _ : N, 3); (0%nat, λ _ : N, 4);
                (2%nat, λ _ : N, 5); (1%nat, λ _ : N, 6)] in
  (∃ st,
     run (NewBytesTRXStoreWithContext (Some (mkContext false)) 10) evs = Some st
     ∧ keys_agree (store st)
     ∧ dom (cache (store st)) = dom (cacheExpire (store st)))
  ∧ (∃ s, prun (program_start 10 ts) sched = Some s
          ∧ threads s !! 1%nat = Some (Check_read 7%N)
          ∧ keys_agree (mem s)).
Proof.
  intros evs ts sched.
  destruct C2_key_sets_agree as (_ & _ & _ & _ & Hreach & Hlock).
  split.
  - destruct (run (NewBytesTRXStoreWithContext (Some (mkContext false)) 10)
                evs) as [st|] eqn:Hrun; [|vm_compute in Hrun; discriminate].
    exists st. split; [reflexivity|].
    exact (Hreach _ _ _ _ Hrun).
  - destruct (prun (program_start 10 ts) sched) as [s|] eqn:Hrun;
      [|vm_compute in Hrun; discriminate].
    assert (threads s !! 1%nat = Some (Check_read 7%N)) as Hth.
    { vm_compute in Hrun. injection Hrun as <-. reflexivity. }
    exists s. split; [reflexivity|]. split; [exact Hth|].
    apply (Hlock 10 ts sched s (ltac:(repeat constructor)) Hrun)
      with (j := 1%nat) (t := Check_read 7%N); [exact Hth|reflexivity].
Defined.

(** C3: one run of the sweep removes from both mappings exactly the
    identifiers whose age, as [time.Since] computes it at the moment the
    scan visits them, exceeds the TTL; every other entry keeps its value
    and its timestamp, and the TTL is untouched. When every entry is
    older than the TTL, nothing is left in either mapping and [Check]
    reports absence for every identifier. The run in question is the body
    of [cleanupExpired] executed statement by statement from the free
    lock with no other goroutine in between. *)
Theorem C3_sweep_deletes_exactly_expired (p : BytesTrxStore)
    (clk : UUID → time.Time) :
  let q := cleanupExpired p clk in
  (∀ id createdAt,
     cacheExpire p !! id = Some createdAt →
     time.Since (clk id) createdAt > ttl p →
     cache q !! id = None ∧ cacheExpire q !! id = None ∧ Check q id = Nil)
  ∧ (∀ id createdAt,
     cacheExpire p !! id = Some createdAt →
     ¬ time.Since (clk id) createdAt > ttl p →
     cache q !! id = cache p !! id ∧ cacheExpire q !! id = Some createdAt
     ∧ Check q id = Check p id)
  ∧ (∀ id,
     cacheExpire p !! id = None →
     cache q !! id = cache p !! id ∧ cacheExpire q !! id = None)
  ∧ ttl q = ttl p
  ∧ (keys_agree p →
     (∀ id createdAt, cacheExpire p !! id = Some createdAt →
                      time.Since (clk id) createdAt > ttl p) →
     cache q = ∅ ∧ cacheExpire q = ∅ ∧ ∀ id, Check q id = Nil)
  ∧ (∃ n, trun n clk Sweep_RLock p unlocked = (Sweep_return, q, unlocked)).
Proof.
  intros q. split; [|split; [|split; [|split; [|split]]]];
    [| | | | |apply cleanupExpired_alone].
  - intros id t Hl Hage.
    destruct (cleanupExpired_drop p clk id t Hl Hage) as [H1 H2].
    unfold Check. fold q in H1, H2. by rewrite H1.
  - intros id t Hl Hage.
    destruct (cleanupExpired_keep p clk id) as [H1 H2].
    { intros t' Hl'. assert (t' = t) as -> by congruence. done. }
    unfold Check. fold q in H1, H2. by rewrite H1, H2.
  - intros id Hl.
    destruct (cleanupExpired_keep p clk id) as [H1 H2].
    { intros t' Hl'. congruence. }
    fold q in H1, H2. by rewrite H1, H2.
  - apply cleanupExpired_spec.
  - intros Hk Hall.
    assert (∀ id, cache q !! id = None ∧ cacheExpire q !! id = None) as Hnone.
    { intros id. destruct (cacheExpire p !! id) as [t|] eqn:Hl.
      - eapply cleanupExpired_drop; eauto.
      - destruct (cleanupExpired_keep p clk id) as [H1 H2].
        { intros t' Hl'. congruence. }
        fold q in H1, H2. rewrite H1, H2, Hl. split; [|done].
        apply eq_None_not_Some. intros Hs. apply Hk in Hs.
        rewrite Hl in Hs. by destruct Hs. }
    split; [|split].
    + apply map_eq. intros id. rewrite lookup_empty. apply Hnone.
    + apply map_eq. intros id. rewrite lookup_empty. apply Hnone.
    + intros id. unfold Check. by rewrite (proj1 (Hnone id)).
Qed.

Lemma C3_sweep_deletes_exactly_expired_witness :
  let p := Store (Store (Store (emptyStore 10) 1%N (Bytes [x61]) 0)
                    2%N (Bytes [x62]) 3) 3%N (Bytes [x63]) 95 in
  let q := cleanupExpired p (λ _, 100) in
  let p' := Store (Store (emptyStore 10) 1%N (Bytes [x61]) 0)
                    2%N (Bytes [x62]) 3 in
  let q' := cleanupExpired p' (λ _, 100) in
  (cache q !! 1%N = None ∧ cacheExpire q !! 1%N = None ∧ Check q 1%N = Nil)
  ∧ (cache q !! 3%N = cache p !! 3%N ∧ cacheExpire q !! 3%N = Some 95
     ∧ Check q 3%N = Check p 3%N)
  ∧ (cache q' = ∅ ∧ cacheExpire q' = ∅ ∧ ∀ id, Check q' id = Nil).
Proof.
  intros p q p' q'.
  destruct (C3_sweep_deletes_exactly_expired p (λ _, 100))
    as (Hdel & Hkeep & _).
  destruct (C3_sweep_deletes_exactly_expired p' (λ _, 100))
    as (_ & _ & _ & _ & Hall & _).
  split; [|split].
  - apply (Hdel 1%N 0); [vm_compute; reflexivity|vm_compute; reflexivity].
  - apply (Hkeep 3%N 95); [vm_compute; reflexivity|vm_compute; discriminate].
  - apply Hall.
    + do 2 apply keys_agree_Store. apply keys_agree_emptyStore.
    + intros id t. unfold p'. simpl.
      rewrite !lookup_insert, lookup_empty.
      repeat case_decide; intros [= <-]; vm_compute; reflexivity.
Defined.

(** C4: of two [Store]s for one identifier the second wins: [Check]
    returns its bytes and the creation timestamp is its time. The expiry
    clock is thereby reset: a sweep judges the entry by the time of the
    second [Store] alone, so it keeps the entry while that age is within
    the TTL however long ago the first [Store] was. *)
Theorem C4_last_write_wins (p : BytesTrxStore) (id : UUID)
    (bytes1 bytes2 : ByteSlice) (t1 t2 : time.Time) :
  let q := Store (Store p id bytes1 t1) id bytes2 t2 in
  Check q id = bytes2
  ∧ cacheExpire q !! id = Some t2
  ∧ ttl q = ttl p
  ∧ (∀ clk, ¬ time.Since (clk id) t2 > ttl p →
       Check (cleanupExpired q clk) id = bytes2
       ∧ cacheExpire (cleanupExpired q clk) !! id = Some t2)
  ∧ (∀ clk, time.Since (clk id) t2 > ttl p →
       Check (cleanupExpired q clk) id = Nil).
Proof.
  intros q.
  assert (cache q !! id = Some bytes2) as Hc
    by (unfold q; simpl; by rewrite lookup_insert_eq).
  assert (cacheExpire q !! id = Some t2) as He
    by (unfold q; simpl; by rewrite lookup_insert_eq).
  split; [|split; [|split; [|split]]]; try done.
  - unfold Check. by rewrite Hc.
  - intros clk Hage.
    destruct (cleanupExpired_keep q clk id) as (H1 & H2).
    { intros t' Hl'. assert (t' = t2) as -> by congruence. done. }
    unfold Check. by rewrite H1, H2, Hc.
  - intros clk Hage.
    destruct (cleanupExpired_drop q clk id t2 He Hage) as (H1 & _).
    unfold Check. by rewrite H1.
Qed.

Lemma C4_last_write_wins_witness :
  let q := Store (Store (emptyStore 10) 1%N (Bytes [x61]) 0)
             1%N (Bytes [x62; x63]) 50 in
  ¬ time.Since 55 50 > 10
  ∧ Check (cleanupExpired q (λ _, 55)) 1%N = Bytes [x62; x63]
  ∧ cacheExpire (cleanupExpired q (λ _, 55)) !! 1%N = Some 50.
Proof.
  intros q.
  assert (¬ time.Since 55 50 > 10) as Hage by (vm_compute; discriminate).
  split; [exact Hage|].
  apply (C4_last_write_wins (emptyStore 10) 1%N (Bytes [x61])
           (Bytes [x62; x63]) 0 50).
  exact Hage.
Defined.

(** C5: [Check] reports absence, the nil slice, for an identifier that no
    [Store] has been called with, in every state that the system reaches,
    and for an identifier that a sweep has just deleted. [Check] is a
    total function with no failure outcome: it returns the nil slice or
    the slice held for the identifier, nothing else. *)
Theorem C5_check_absent :
  (∀ c d evs st id,
     run (NewBytesTRXStoreWithContext c d) evs = Some st →
     Forall (λ e, ev_stores_to id e = false) evs →
     Check (store st) id = Nil)
  ∧ (∀ p batch id, id ∈ batch → Check (deletePhase p batch) id = Nil)
  ∧ (∀ p clk id createdAt,
       cacheExpire p !! id = Some createdAt →
       time.Since (clk id) createdAt > ttl p →
       Check (cleanupExpired p clk) id = Nil)
  ∧ (∀ p id,
       (cache p !! id = None ∧ Check p id = Nil)
       ∨ (∃ b, cache p !! id = Some b ∧ Check p id = b)).
Proof.
  split; [|split; [|split]].
  - intros c d evs st id Hrun Hall. unfold Check.
    rewrite (run_absent evs _ st id Hrun Hall); [done|].
    simpl. apply lookup_empty.
  - intros p batch id Hin. unfold Check.
    destruct (deletePhase_spec p batch) as (Hc & _).
    by rewrite Hc, decide_True.
  - intros p clk id t Hl Hage. unfold Check.
    by rewrite (proj1 (cleanupExpired_drop p clk id t Hl Hage)).
  - intros p id. unfold Check. destruct (cache p !! id) as [b|]; eauto.
Qed.

Lemma C5_check_absent_witness :
  let evs := [EvStore 1%N (Bytes [x61]) 0; EvCheck 2%N; EvTick;
              EvScan (λ _, 20); EvDelete; EvCheck 1%N] in
  ∃ st,
    run (NewBytesTRXStore 10) evs = Some st
    ∧ Check (store st) 2%N = Nil
    ∧ Check (deletePhase (emptyStore 10) {[ 5%N ]}) 5%N = Nil.
Proof.
  intros evs.
  destruct C5_check_absent as (Hnever & Hswept & _).
  destruct (run (NewBytesTRXStore 10) evs) as [st|] eqn:Hrun;
    [|vm_compute in Hrun; discriminate].
  exists st. split; [reflexivity|]. split.
  - apply (Hnever None 10 evs st 2%N Hrun). repeat constructor.
  - apply Hswept. set_solver.
Defined.

(** C6: the code loses a result before its TTL has elapsed when the
    [Store] lands between the two phases of a sweep that had found the
    former entry of the identifier expired. In [stale_sweep_trace] the
    TTL is 10ns and ["b"] is stored for identifier 1 at clock 11, where
    the only read phase ran; its age then is 0; the write phase
    nevertheless deletes it and [Check(1)] reports absence. The same
    happens statement by statement, under the lock, with
    [stale_sweep_schedule]. *)
Theorem C6_store_between_phases_is_lost :
  (∃ st,
     run (NewBytesTRXStore 10) stale_sweep_trace = Some st
     ∧ Check (store st) 1%N = Nil
     ∧ cache (store st) !! 1%N = None
     ∧ cacheExpire (store st) !! 1%N = None
     ∧ ttl (store st) = 10)
  ∧ (∃ s,
       prun (program_start 10 stale_sweep_threads) stale_sweep_schedule
         = Some s
       ∧ threads s = [Store_return; Sweep_return; Store_return;
                      Check_return Nil]
       ∧ cache (mem s) !! 1%N = None
       ∧ cacheLock s = unlocked)
  ∧ time.Since 11 11 = 0
  ∧ time.Since 12 11 = 1.
Proof.
  split; [|split].
  - eexists. split; [vm_compute; reflexivity|]. vm_compute. repeat split.
  - eexists. split; [vm_compute; reflexivity|]. vm_compute. repeat split.
  - vm_compute. split; reflexivity.
Qed.

(** C7, as stated, fails when a tick is pending along with the fired
    signal. TTL 10ns; [Store(1, "a")] at 0 and [Store(2, "b")] at 50; a
    tick; the read phase at 20 collects identifier 1; while the sweep is
    under way a second tick arrives and the signal fires; the write
    phase. Back at its [select] the goroutine finds both cases ready; it
    may take the tick, which does not stop it, and that sweep, at clock
    70, goes on to delete the entry of identifier 2. *)
Lemma C7_pending_tick_may_win : ¬ stops_on_next_wake.
Proof.
  intros Hclaim.
  pose (evs := [EvStore 1%N (Bytes [x61]) 0; EvStore 2%N (Bytes [x62]) 50;
                EvTick; EvScan (λ _, 20); EvTick; EvCancel; EvDelete]).
  pose (init := NewBytesTRXStoreWithContext (Some (mkContext false)) 10).
  assert (∃ st st',
            run init evs = Some st
            ∧ ctx (sweeper st) = Some (mkContext true)
            ∧ step st (EvScan (λ _, 70)) = Some st'
            ∧ at_ (sweeper st') = Scanned {[ 2%N ]})
    as (st & st' & Hrun & Hc & Hstep & Hat).
  { do 2 eexists. split; [vm_compute; reflexivity|].
    split; [reflexivity|]. split; [vm_compute; reflexivity|].
    vm_compute. reflexivity. }
  unfold init in Hrun.
  destruct (Hclaim _ _ _ _ (EvScan (λ _, 70)) _ Hrun Hc eq_refl Hstep)
    as (Hret & _).
  rewrite Hret in Hat. discriminate.
Qed.

(** C7 (amended): with a context supplied, the [select] can take the
    cancellation case exactly when the signal has fired; taking it stops
    the ticker and ends the loop without touching the store, and it is the
    only step the goroutine can take when no tick is pending at that
    moment. After the return no sweep runs any more: nothing is ever
    deleted, every entry stays as it is until a [Store] overwrites it, and
    [Store] and [Check] work as before. With the nil context the loop is
    never left and the ticker never stopped. *)
Theorem C7_cancellation :
  (∀ st c,
     ctx (sweeper st) = Some c → at_ (sweeper st) = AtLoop →
     if doneClosed c
     then ∃ st', step st EvDone = Some st'
                 ∧ at_ (sweeper st') = Returned
                 ∧ tickerStopped (sweeper st') = true
                 ∧ store st' = store st
     else step st EvDone = None)
  ∧ (∀ st c e st',
       ctx (sweeper st) = Some c → doneClosed c = true →
       tickPending (sweeper st) = false →
       is_wake e = true → step st e = Some st' →
       e = EvDone)
  ∧ (∀ st evs st',
       at_ (sweeper st) = Returned → run st evs = Some st' →
       at_ (sweeper st') = Returned
       ∧ deleted st evs = ∅
       ∧ ∀ id, Forall (λ e, ev_stores_to id e = false) evs →
               Check (store st') id = Check (store st) id
               ∧ cacheExpire (store st') !! id = cacheExpire (store st) !! id)
  ∧ (∀ st id b now,
       at_ (sweeper st) = Returned →
       ∃ st', step st (EvStore id b now) = Some st'
              ∧ Check (store st') id = b
              ∧ step st' (EvCheck id) = Some st')
  ∧ (∀ d evs st,
       run (NewBytesTRXStore d) evs = Some st →
       at_ (sweeper st) ≠ Returned
       ∧ tickerStopped (sweeper st) = false
       ∧ step st EvDone = None
       ∧ step st EvCancel = None
       ∧ is_Some (step st EvTick)
       ∧ (at_ (sweeper st) = AtLoop → tickPending (sweeper st) = true →
          ∀ clk, is_Some (step st (EvScan clk)))
       ∧ (∀ batch, at_ (sweeper st) = Scanned batch →
                   is_Some (step st EvDelete))).
Proof.
  split; [|split; [|split; [|split]]].
  - intros [p [c0 tk stp a]] c; simpl; intros -> ->.
    destruct (doneClosed c); eauto.
  - intros [p [c0 tk stp a]] c e st'; simpl; intros -> Hc -> Hw Hs.
    destruct e; try done. simpl in Hs. by destruct a.
  - intros st evs st' Hret Hrun.
    destruct (run_returned evs st st' Hret Hrun) as (H1 & H2 & _ & H4).
    split; [exact H1|]. split; [exact H2|].
    intros id Hall. destruct (H4 id Hall) as [Hc He].
    split; [|exact He]. unfold Check. by rewrite Hc.
  - intros st id b now _. eexists. split; [reflexivity|].
    split; [|reflexivity]. unfold Check; simpl. by rewrite lookup_insert_eq.
  - intros d evs st Hrun.
    assert (ctx (sweeper st) = None ∧ at_ (sweeper st) ≠ Returned
            ∧ tickerStopped (sweeper st) = false) as (Hc & Ha & Ht).
    { eapply (run_invariant _ step_nil_ctx); [|exact Hrun]. by simpl. }
    destruct st as [p [c tk stp a]]; simpl in *; subst.
    split; [done|]. split; [done|]. split; [by destruct a|].
    split; [done|]. split; [eauto|]. split.
    + intros -> -> clk. eauto.
    + intros batch ->. eauto.
Qed.

Lemma C7_cancellation_witness :
  let init := NewBytesTRXStoreWithContext (Some (mkContext false)) 10 in
  let evs := [EvStore 1%N (Bytes [x61]) 0; EvTick; EvScan (λ _, 5);
              EvDelete; EvCancel] in
  let later := [EvCheck 1%N; EvStore 2%N (Bytes [x62]) 99; EvCheck 2%N] in
  ∃ st st1 st2,
    run init evs = Some st
    ∧ step st EvDone = Some st1
    ∧ at_ (sweeper st1) = Returned
    ∧ tickerStopped (sweeper st1) = true
    ∧ store st1 = store st
    ∧ run st1 later = Some st2
    ∧ at_ (sweeper st2) = Returned
    ∧ deleted st1 later = ∅
    ∧ Check (store st2) 1%N = Check (store st1) 1%N.
Proof.
  intros init evs later.
  destruct C7_cancellation as (Hdone & _ & Hafter & _).
  destruct (run init evs) as [st|] eqn:Hrun;
    [|vm_compute in Hrun; discriminate].
  assert (ctx (sweeper st) = Some (mkContext true)
          ∧ at_ (sweeper st) = AtLoop) as [Hc Ha].
  { vm_compute in Hrun. injection Hrun as <-. split; reflexivity. }
  destruct (Hdone st (mkContext true) Hc Ha) as (st1 & Hs & Hret & Hstop & Hst).
  destruct (run st1 later) as [st2|] eqn:Hlater.
  - destruct (Hafter st1 later st2 Hret Hlater) as (Hret2 & Hdel & Hsame).
    exists st, st1, st2. repeat split; try done.
    apply Hsame. repeat constructor.
  - exfalso. unfold later in Hlater. simpl in Hlater. discriminate.
Defined.

(** C8: [Check] has no side effect. A call of [Check] is a step that
    leaves the whole system as it was, the two mappings and the TTL
    included, so any number of checks changes nothing. Statement by
    statement, its body run from the free lock returns the value with the
    store and the lock as they were, and in no interleaving does a
    statement of [Check] write to the store. *)
Theorem C8_check_no_side_effect :
  (∀ st id, step st (EvCheck id) = Some st)
  ∧ (∀ p id, apply_op p (OpCheck id) = p)
  ∧ (∀ st ids, run st (EvCheck <$> ids) = Some st)
  ∧ (∀ clk trx p,
       trun 3 clk (Check_RLock trx) p unlocked =
         (Check_return (Check p trx), p, unlocked))
  ∧ (∀ s who clk s' t,
       threads s !! who = Some t → runs_Check t = true →
       pstep s who clk = Some s' →
       cache (mem s') = cache (mem s)
       ∧ cacheExpire (mem s') = cacheExpire (mem s)
       ∧ ttl (mem s') = ttl (mem s)).
Proof.
  split; [done|]. split; [done|]. split; [|split].
  - intros st ids. induction ids as [|i ids IH]; simpl; done.
  - apply Check_alone.
  - intros s who clk s' t Ht Hc Hs.
    by rewrite (pstep_Check_mem s who clk s' t Ht Hc Hs).
Qed.

Lemma C8_check_no_side_effect_witness :
  let p := Store (emptyStore 10) 1%N (Bytes [x61]) 0 in
  let s := {| mem := p; cacheLock := unlocked;
              threads := [Check_RLock 1%N; Store_Lock 2%N Nil] |} in
  ∃ s', pstep s 0 (λ _, 5) = Some s'
        ∧ cache (mem s') = cache p
        ∧ cacheExpire (mem s') = cacheExpire p
        ∧ ttl (mem s') = ttl p.
Proof.
  intros p s.
  destruct C8_check_no_side_effect as (_ & _ & _ & _ & Hstmt).
  destruct (pstep s 0 (λ _, 5)) as [s'|] eqn:Hs;
    [|vm_compute in Hs; discriminate].
  exists s'. split; [reflexivity|].
  apply (Hstmt s 0%nat (λ _, 5) s' (Check_RLock 1%N)); try reflexivity.
  exact Hs.
Defined.

(** C9, as stated, fails for the empty slice that is not nil: [Check]
    hands back that very slice, and a comparison with [nil], the test of
    absence, tells it from the answer for an identifier never stored. *)
Lemma C9_empty_slice_is_not_absence :
  let p := Store (emptyStore 10) 1%N (Bytes []) 0 in
  Check p 1%N = Bytes []
  ∧ Check p 1%N ≠ Check (emptyStore 10) 1%N
  ∧ is_nil (Check p 1%N) = false
  ∧ is_nil (Check (emptyStore 10) 1%N) = true.
Proof. vm_compute. repeat split; discriminate. Qed.

(** C9 (amended): storing the nil slice makes the result the same as
    absence: [Check] returns nil, as it does for an identifier never
    stored, although the identifier is a key of both mappings. Storing an
    empty slice that is not nil returns that slice: of length 0 and equal
    to nil for [bytes.Equal], but not nil. *)
Theorem C9_nil_result_reads_as_absent (p : BytesTrxStore) (id : UUID)
    (now : time.Time) :
  Check (Store p id Nil now) id = Nil
  ∧ Check (Store p id Nil now) id = Check (emptyStore (ttl p)) id
  ∧ cache (Store p id Nil now) !! id = Some Nil
  ∧ cacheExpire (Store p id Nil now) !! id = Some now
  ∧ Check (Store p id (Bytes []) now) id = Bytes []
  ∧ len (Check (Store p id (Bytes []) now) id) = 0%nat
  ∧ bytes_Equal (Check (Store p id (Bytes []) now) id) Nil = true
  ∧ is_nil (Check (Store p id (Bytes []) now) id) = false.
Proof.
  unfold Check; simpl. rewrite !lookup_insert_eq, lookup_empty. done.
Qed.




(** * Further properties of the code *)

(** ** More on the clock *)

Lemma wrap64_range (z : Z) : time.int64 (time.wrap64 z).
Proof.
  unfold time.int64, time.wrap64, time.minDuration, time.maxDuration.
  pose proof (Z.mod_pos_bound (z + 2 ^ 63) (2 ^ 64) ltac:(lia)). lia.
Qed.

Lemma Since_range (now t : time.Time) : time.int64 (time.Since now t).
Proof.
  unfold time.Since, time.Sub, time.subMono.
  pose proof (wrap64_range (now - t)) as Hw.
  repeat case_match; try done;
    unfold time.int64, time.minDuration, time.maxDuration; lia.
Qed.

Lemma Since_nonneg (now t : time.Time) : t <= now → 0 <= time.Since now t.
Proof.
  intros Hle. unfold time.Since, time.Sub, time.subMono.
  destruct (Z.ltb_spec (time.wrap64 (now - t)) 0),
    (Z.ltb_spec t now), (Z.ltb_spec 0 (time.wrap64 (now - t))),
    (Z.ltb_spec now t); simpl; unfold time.maxDuration; try lia.
  assert (now = t) as -> by (clear - Hle H0; lia).
  rewrite Z.sub_diag in *. vm_compute in H. discriminate.
Qed.

(** For readings that an [int64] holds, [time.Since] is the difference
    cut to the range of a [Duration]. *)
Lemma Since_saturates (now t : time.Time) :
  time.int64 now → time.int64 t →
  time.Since now t =
    Z.max time.minDuration (Z.min time.maxDuration (now - t)).
Proof.
  unfold time.int64, time.minDuration, time.maxDuration.
  intros Hn Ht.
  unfold time.Since, time.Sub, time.subMono, time.wrap64,
    time.minDuration, time.maxDuration.
  assert (now - t + 2 ^ 63 < 0
          ∨ 0 <= now - t + 2 ^ 63 < 2 ^ 64
          ∨ 2 ^ 64 <= now - t + 2 ^ 63) as [Hlo|[Hmid|Hhi]] by lia.
  - assert ((now - t + 2 ^ 63) mod 2 ^ 64 = now - t + 2 ^ 63 + 2 ^ 64) as ->.
    { symmetry. apply (Z.mod_unique _ _ (-1)); lia. }
    destruct (Z.ltb_spec (now - t + 2 ^ 63 + 2 ^ 64 - 2 ^ 63) 0),
      (Z.ltb_spec t now), (Z.ltb_spec 0 (now - t + 2 ^ 63 + 2 ^ 64 - 2 ^ 63)),
      (Z.ltb_spec now t); simpl; lia.
  - rewrite Z.mod_small by lia.
    destruct (Z.ltb_spec (now - t + 2 ^ 63 - 2 ^ 63) 0),
      (Z.ltb_spec t now), (Z.ltb_spec 0 (now - t + 2 ^ 63 - 2 ^ 63)),
      (Z.ltb_spec now t); simpl; lia.
  - assert ((now - t + 2 ^ 63) mod 2 ^ 64 = now - t + 2 ^ 63 - 2 ^ 64) as ->.
    { symmetry. apply (Z.mod_unique _ _ 1); lia. }
    destruct (Z.ltb_spec (now - t + 2 ^ 63 - 2 ^ 64 - 2 ^ 63) 0),
      (Z.ltb_spec t now), (Z.ltb_spec 0 (now - t + 2 ^ 63 - 2 ^ 64 - 2 ^ 63)),
      (Z.ltb_spec now t); simpl; lia.
Qed.

(** The age of an entry does not decrease as the clock advances. *)
Lemma Since_mono (now1 now2 t : time.Time) :
  time.int64 now1 → time.int64 now2 → time.int64 t →
  now1 <= now2 → time.Since now1 t <= time.Since now2 t.
Proof.
  intros H1 H2 Ht Hle. rewrite !Since_saturates by done. lia.
Qed.

(** ** More on the sweep *)

(** A second sweep after a first does what it would have done alone,
    when every entry that the first found expired is expired for the
    second too. *)
Lemma cleanupExpired_twice (p : BytesTrxStore) (clk1 clk2 : UUID → time.Time) :
  (∀ id createdAt,
     cacheExpire p !! id = Some createdAt →
     time.Since (clk1 id) createdAt > ttl p →
     time.Since (clk2 id) createdAt > ttl p) →
  cleanupExpired (cleanupExpired p clk1) clk2 = cleanupExpired p clk2.
Proof.
  intros Hlater.
  set (q := cleanupExpired p clk1).
  destruct (cleanupExpired_spec p clk1) as (Hc1 & He1 & Ht1).
  destruct (cleanupExpired_spec q clk2) as (Hc & He & Ht).
  destruct (cleanupExpired_spec p clk2) as (Hc2 & He2 & Ht2).
  fold q in Hc1, He1, Ht1.
  assert (∀ id, id ∈ entriesForRemove p clk1 → id ∈ entriesForRemove p clk2)
    as Hsub.
  { intros id. rewrite !elem_of_entriesForRemove.
    intros (t & Hl & Hage). eauto. }
  assert (∀ id, id ∉ entriesForRemove p clk1 →
                (id ∈ entriesForRemove q clk2 ↔ id ∈ entriesForRemove p clk2))
    as Hsame.
  { intros id Hnot. rewrite !elem_of_entriesForRemove.
    by rewrite He1, Ht1, decide_False. }
  apply store_eq.
  - intros id. rewrite Hc, Hc2, Hc1.
    destruct (decide (id ∈ entriesForRemove p clk1)) as [Hin|Hnot].
    + rewrite (decide_True (P := id ∈ entriesForRemove p clk2)) by auto.
      by case_decide.
    + specialize (Hsame id Hnot). repeat case_decide; tauto.
  - intros id. rewrite He, He2, He1.
    destruct (decide (id ∈ entriesForRemove p clk1)) as [Hin|Hnot].
    + rewrite (decide_True (P := id ∈ entriesForRemove p clk2)) by auto.
      by case_decide.
    + specialize (Hsame id Hnot). repeat case_decide; tauto.
  - by rewrite Ht, Ht1, Ht2.
Qed.

(** X1: sweeps compose. A sweep repeated with the same clock readings
    changes nothing more; and when the clock has only advanced between
    two sweeps (all readings and timestamps being [int64] values), the
    two sweeps leave what the later one alone would leave. *)
Theorem X1_sweeps_compose (p : BytesTrxStore) (clk1 clk2 : UUID → time.Time) :
  cleanupExpired (cleanupExpired p clk1) clk1 = cleanupExpired p clk1
  ∧ ((∀ id, time.int64 (clk1 id) ∧ time.int64 (clk2 id)
            ∧ clk1 id <= clk2 id) →
     (∀ id createdAt, cacheExpire p !! id = Some createdAt →
                      time.int64 createdAt) →
     cleanupExpired (cleanupExpired p clk1) clk2 = cleanupExpired p clk2).
Proof.
  split.
  - by apply cleanupExpired_twice.
  - intros Hclk Hts. apply cleanupExpired_twice.
    intros id t Hl Hage. destruct (Hclk id) as (H1 & H2 & Hle).
    pose proof (Since_mono (clk1 id) (clk2 id) t H1 H2 (Hts id t Hl) Hle).
    lia.
Qed.

Lemma X1_sweeps_compose_witness :
  let p := Store (Store (Store (emptyStore 10) 1%N (Bytes [x61]) 0)
                    2%N (Bytes [x62]) 15) 3%N Nil 40 in
  cleanupExpired (cleanupExpired p (λ _, 20)) (λ _, 30)
  = cleanupExpired p (λ _, 30).
Proof.
  intros p.
  apply (X1_sweeps_compose p (λ _, 20) (λ _, 30)).
  - intros id. vm_compute. repeat split; discriminate.
  - intros id t. unfold p. simpl.
    rewrite !lookup_insert, lookup_empty.
    repeat case_decide; intros [= <-]; vm_compute; split; discriminate.
Defined.

(** X2: a complete sweep and a [Store] commute when the stored entry is
    not expired at the sweep: sweeping after the [Store] leaves what
    storing after the sweep leaves. (It is the [Store] between the two
    phases of a sweep that does not fit either order.) *)
Theorem X2_sweep_commutes_with_store (p : BytesTrxStore)
    (clk : UUID → time.Time) (id : UUID) (result : ByteSlice)
    (now : time.Time) :
  ¬ time.Since (clk id) now > ttl p →
  cleanupExpired (Store p id result now) clk
  = Store (cleanupExpired p clk) id result now.
Proof.
  intros Hyoung.
  destruct (cleanupExpired_spec (Store p id result now) clk)
    as (Hc & He & Ht).
  destruct (cleanupExpired_spec p clk) as (Hc' & He' & Ht').
  assert (id ∉ entriesForRemove (Store p id result now) clk) as Hid.
  { rewrite elem_of_entriesForRemove. simpl. rewrite lookup_insert_eq.
    intros (t & [= <-] & Hage). done. }
  assert (∀ i, i ≠ id →
            (i ∈ entriesForRemove (Store p id result now) clk
             ↔ i ∈ entriesForRemove p clk)) as Hother.
  { intros i Hne. rewrite !elem_of_entriesForRemove. simpl.
    by rewrite lookup_insert_ne. }
  apply store_eq.
  - intros i. rewrite Hc. simpl. destruct (decide (i = id)) as [->|Hne].
    + by rewrite decide_False, !lookup_insert_eq.
    + rewrite !lookup_insert_ne, Hc' by done.
      specialize (Hother i Hne). repeat case_decide; tauto.
  - intros i. rewrite He. simpl. destruct (decide (i = id)) as [->|Hne].
    + by rewrite decide_False, !lookup_insert_eq.
    + rewrite !lookup_insert_ne, He' by done.
      specialize (Hother i Hne). repeat case_decide; tauto.
  - rewrite Ht. simpl. by rewrite Ht'.
Qed.

Lemma X2_sweep_commutes_with_store_witness :
  let p := Store (Store (emptyStore 10) 1%N (Bytes [x61]) 0)
             2%N (Bytes [x62]) 15 in
  cleanupExpired (Store p 1%N (Bytes [x63]) 18) (λ _, 20)
  = Store (cleanupExpired p (λ _, 20)) 1%N (Bytes [x63]) 18.
Proof.
  intros p.
  apply (X2_sweep_commutes_with_store p (λ _, 20) 1%N (Bytes [x63]) 18).
  vm_compute. discriminate.
Defined.




Lemma Since_pos (now t : time.Time) :
  time.int64 now → time.int64 t → t < now → 0 < time.Since now t.
Proof.
  intros Hn Ht Hlt. rewrite Since_saturates by done.
  unfold time.minDuration, time.maxDuration. lia.
Qed.

(** A sweep that finds every entry expired empties both maps. *)
Lemma cleanupExpired_all (p : BytesTrxStore) (clk : UUID → time.Time) :
  keys_agree p →
  (∀ id createdAt, cacheExpire p !! id = Some createdAt →
                   time.Since (clk id) createdAt > ttl p) →
  cache (cleanupExpired p clk) = ∅ ∧ cacheExpire (cleanupExpired p clk) = ∅.
Proof.
  intros Hk Hall.
  assert (∀ id, cache (cleanupExpired p clk) !! id = None
                ∧ cacheExpire (cleanupExpired p clk) !! id = None) as Hnone.
  { intros id. destruct (cacheExpire p !! id) as [t|] eqn:Hl.
    - eapply cleanupExpired_drop; eauto.
    - destruct (cleanupExpired_keep p clk id) as [H1 H2].
      { intros t' Hl'. congruence. }
      rewrite H1, H2, Hl. split; [|done].
      apply eq_None_not_Some. intros Hs. apply Hk in Hs.
      rewrite Hl in Hs. by destruct Hs. }
  split; apply map_eq; intros id; rewrite lookup_empty; apply Hnone.
Qed.

(** X4: the edges of the TTL, as the comparison
    [time.Since(createdAt) > p.ttl] decides them. With a negative TTL
    every sweep empties the store, entries stored at that very instant
    included. With TTL 0 an entry survives a sweep exactly when the clock
    has not moved since its [Store]. With the largest [Duration] as TTL
    no sweep ever deletes anything. *)
Theorem X4_ttl_edge_cases (p : BytesTrxStore) (clk : UUID → time.Time) :
  (ttl p < 0 → keys_agree p →
   (∀ id createdAt, cacheExpire p !! id = Some createdAt →
                    createdAt <= clk id) →
   cache (cleanupExpired p clk) = ∅
   ∧ cacheExpire (cleanupExpired p clk) = ∅)
  ∧ (ttl p = 0 →
     ∀ id createdAt,
       cacheExpire p !! id = Some createdAt →
       time.int64 (clk id) → time.int64 createdAt →
       (createdAt < clk id → Check (cleanupExpired p clk) id = Nil)
       ∧ (createdAt = clk id →
          Check (cleanupExpired p clk) id = Check p id))
  ∧ (time.maxDuration <= ttl p → cleanupExpired p clk = p).
Proof.
  split; [|split].
  - intros Hneg Hk Hpast. apply cleanupExpired_all; [done|].
    intros id t Hl. pose proof (Since_nonneg (clk id) t (Hpast id t Hl)). lia.
  - intros Hzero id t Hl Hn Ht. split.
    + intros Hlt. unfold Check.
      rewrite (proj1 (cleanupExpired_drop p clk id t Hl
                        ltac:(pose proof (Since_pos _ _ Hn Ht Hlt); lia))).
      done.
    + intros ->. unfold Check.
      rewrite (proj1 (cleanupExpired_keep p clk id
                        ltac:(intros t' Hl';
                              assert (t' = clk id) as -> by congruence;
                              rewrite Since_exact, Z.sub_diag, Hzero;
                                [lia|rewrite Z.sub_diag; done]))).
      done.
  - intros Hmax.
    destruct (cleanupExpired_spec p clk) as (Hc & He & Ht).
    assert (∀ id, id ∉ entriesForRemove p clk) as Hnone.
    { intros id. rewrite elem_of_entriesForRemove. intros (t & _ & Hage).
      pose proof (Since_range (clk id) t) as [_ Hhi]. lia. }
    apply store_eq; [| |done].
    + intros id. by rewrite Hc, decide_False.
    + intros id. by rewrite He, decide_False.
Qed.

Lemma X4_ttl_edge_cases_witness :
  let neg := Store (Store (emptyStore (-1)) 1%N (Bytes [x61]) 5)
               2%N (Bytes [x62]) 7 in
  let zero := Store (Store (emptyStore 0) 1%N (Bytes [x61]) 5)
                2%N (Bytes [x62]) 7 in
  let forever := Store (emptyStore time.maxDuration) 1%N (Bytes [x61]) 5 in
  (cache (cleanupExpired neg (λ _, 7)) = ∅
   ∧ cacheExpire (cleanupExpired neg (λ _, 7)) = ∅)
  ∧ Check (cleanupExpired zero (λ _, 7)) 1%N = Nil
  ∧ Check (cleanupExpired zero (λ _, 7)) 2%N = Check zero 2%N
  ∧ cleanupExpired forever (λ _, 2 ^ 62) = forever.
Proof.
  intros neg zero forever.
  destruct (X4_ttl_edge_cases neg (λ _, 7)) as (Hneg & _).
  destruct (X4_ttl_edge_cases zero (λ _, 7)) as (_ & Hzero & _).
  destruct (X4_ttl_edge_cases forever (λ _, 2 ^ 62)) as (_ & _ & Hmax).
  split; [|split; [|split]].
  - apply Hneg; [reflexivity| |].
    + do 2 apply keys_agree_Store. apply keys_agree_emptyStore.
    + intros id t. unfold neg. simpl. rewrite !lookup_insert, lookup_empty.
      repeat case_decide; intros [= <-]; lia.
  - apply (Hzero eq_refl 1%N 5); [reflexivity| | |lia];
      vm_compute; split; discriminate.
  - apply (Hzero eq_refl 2%N 7); [reflexivity| | |reflexivity];
      vm_compute; split; discriminate.
  - apply Hmax. reflexivity.
Defined.

(** ** More on the runs of the system *)

Lemma run_snoc (st : System) (evs : list event) (e : event) (st' : System) :
  run st (evs ++ [e]) = Some st' ↔
  ∃ st1, run st evs = Some st1 ∧ step st1 e = Some st'.
Proof.
  rewrite run_app. destruct (run st evs) as [st1|]; simpl.
  - destruct (step st1 e) as [st2|] eqn:Hs; split.
    + intros [= <-]. eauto.
    + intros (? & [= <-] & Hs'). congruence.
    + done.
    + intros (? & [= <-] & Hs'). congruence.
  - split; [done|]. by intros (? & ? & _).
Qed.

Lemma last_store_snoc (id : UUID) (evs : list event) (e : event) :
  last_store id (evs ++ [e]) =
    match e with
    | EvStore trx result now =>
        if decide (trx = id) then Some (result, now) else last_store id evs
    | _ => last_store id evs
    end.
Proof. unfold last_store. by rewrite foldl_app. Qed.

Lemma last_store_elem (id : UUID) (evs : list event) (b : ByteSlice)
    (t : time.Time) :
  last_store id evs = Some (b, t) → EvStore id b t ∈ evs.
Proof.
  induction evs as [|e evs IH] using rev_ind; [done|].
  rewrite last_store_snoc, elem_of_app, list_elem_of_singleton.
  destruct e; try (intros H; left; by apply IH).
  case_decide as Heq; [|intros H; left; by apply IH].
  intros [= -> ->]. right. by rewrite Heq.
Qed.

(** X5: what the store holds for an identifier is what the last [Store]
    for that identifier put there. In every state that the system
    reaches, whatever the interleaving of callers and sweeper, an
    identifier is either absent from both maps or holds the result and
    the time of the last [Store] called with it; so [Check] returns nil
    or that result, never a result stored under another identifier nor
    an older one. The TTL stays the one given at construction. *)
Theorem X5_entry_is_last_store (c : option Context) (d : time.Duration)
    (evs : list event) (st : System) (id : UUID) :
  run (NewBytesTRXStoreWithContext c d) evs = Some st →
  ttl (store st) = d
  ∧ ((cache (store st) !! id = None ∧ cacheExpire (store st) !! id = None
      ∧ Check (store st) id = Nil)
     ∨ (∃ b t, last_store id evs = Some (b, t)
               ∧ EvStore id b t ∈ evs
               ∧ cache (store st) !! id = Some b
               ∧ cacheExpire (store st) !! id = Some t
               ∧ Check (store st) id = b)).
Proof.
  revert st. induction evs as [|e evs IH] using rev_ind; intros st Hrun.
  - simpl in Hrun. injection Hrun as <-. split; [done|]. left.
    unfold Check; simpl. by rewrite !lookup_empty.
  - apply run_snoc in Hrun as (st1 & Hrun1 & Hstep).
    destruct (IH st1 Hrun1) as (Httl & Hentry).
    pose proof (step_store st1 e st Hstep) as Hst.
    assert (∀ b t, last_store id evs = Some (b, t) →
                   ev_stores_to id e = false →
                   last_store id (evs ++ [e]) = Some (b, t)
                   ∧ EvStore id b t ∈ evs ++ [e]) as Hkeep.
    { intros b t Hl Hne. split.
      - rewrite last_store_snoc. destruct e; try done.
        simpl in Hne. apply bool_decide_eq_false in Hne.
        by rewrite decide_False.
      - apply elem_of_app. left. by apply last_store_elem. }
    destruct e; try (rewrite Hst; split; [done|];
      destruct Hentry as [?|(b & t & Hl & _ & Hrest)]; [by left|];
      right; exists b, t; destruct (Hkeep b t Hl eq_refl); done).
    + rewrite Hst. split; [done|]. simpl.
      destruct (decide (trx = id)) as [->|Hne].
      * right. exists result, now. rewrite last_store_snoc, decide_True by done.
        unfold Check; simpl. rewrite !lookup_insert_eq.
        repeat split; try done.
        apply elem_of_app. right. by apply list_elem_of_singleton.
      * unfold Check in *; simpl. rewrite !lookup_insert_ne by done.
        destruct Hentry as [?|(b & t & Hl & _ & Hrest)]; [by left|].
        right. exists b, t.
        destruct (Hkeep b t Hl) as [? ?];
          [simpl; by apply bool_decide_eq_false|done].
    + destruct Hst as (batch & _ & ->).
      destruct (deletePhase_spec (store st1) batch) as (Hc & He & Ht).
      split; [by rewrite Ht|].
      unfold Check in *. rewrite Hc, He.
      case_decide; [by left|].
      destruct Hentry as [?|(b & t & Hl & _ & Hrest)]; [by left|].
      right. exists b, t. destruct (Hkeep b t Hl eq_refl). done.
Qed.

Lemma X5_entry_is_last_store_witness :
  let evs := [EvStore 1%N (Bytes [x61]) 0; EvStore 2%N (Bytes [x62]) 1;
              EvTick; EvScan (λ _, 5); EvStore 1%N (Bytes [x63]) 6;
              EvDelete] in
  ∃ st, run (NewBytesTRXStore 10) evs = Some st
        ∧ ttl (store st) = 10
        ∧ Check (store st) 1%N = Bytes [x63].
Proof.
  intros evs.
  destruct (run (NewBytesTRXStore 10) evs) as [st|] eqn:Hrun;
    [|vm_compute in Hrun; discriminate].
  exists st. split; [reflexivity|].
  destruct (X5_entry_is_last_store None 10 evs st 1%N Hrun)
    as (Httl & [(Hnone & _)|(b & t & Hlast & _ & _ & _ & Hcheck)]).
  - exfalso. vm_compute in Hrun. injection Hrun as <-.
    vm_compute in Hnone. discriminate.
  - split; [exact Httl|]. rewrite Hcheck.
    vm_compute in Hlast. by injection Hlast as <- _.
Defined.







(** ** More on the methods under the lock *)

Lemma count_exists (f : thread → bool) (ts : list thread) :
  (1 ≤ count f ts)%nat → ∃ j t, ts !! j = Some t ∧ f t = true.
Proof.
  induction ts as [|a ts IH]; simpl; [lia|].
  destruct (f a) eqn:Hf.
  - intros _. by exists 0%nat, a.
  - intros Hpos. destruct (IH ltac:(lia)) as (j & t & Hj & Ht).
    by exists (S j), t.
Qed.

Lemma count_none (f : thread → bool) (ts : list thread) :
  (∀ j t, ts !! j = Some t → f t = false) → count f ts = 0%nat.
Proof.
  induction ts as [|a l IH]; intros Hf; [done|].
  simpl. rewrite (Hf 0%nat a eq_refl).
  rewrite IH; [done|]. intros j t Hj. apply (Hf (S j) t Hj).
Qed.

Lemma pstep_is_Some (s : Program) (who : nat) (clk : UUID → time.Time)
    (t : thread) :
  threads s !! who = Some t →
  is_Some (tstep clk t (mem s) (cacheLock s)) →
  is_Some (pstep s who clk).
Proof.
  intros Ht [r Hr]. unfold pstep. rewrite Ht. simpl. rewrite Hr. simpl. eauto.
Qed.

(** A goroutine inside a critical section is never held up. *)
Lemma holder_steps (clk : UUID → time.Time) (t : thread) (p : BytesTrxStore)
    (m : RWMutex) :
  holds_read t = true ∨ holds_write t = true → is_Some (tstep clk t p m).
Proof.
  destruct t; simpl; intros [?|?]; try done; eauto;
    destruct todo; eauto.
Qed.

(** With the lock free every call that has not returned can go on. *)
Lemma free_lock_steps (clk : UUID → time.Time) (t : thread)
    (p : BytesTrxStore) :
  returned t = false → is_Some (tstep clk t p unlocked).
Proof.
  destruct t; simpl; intros ?; try done; eauto;
    try (case_decide; simpl; eauto); try (destruct todo; eauto).
Qed.

(** X8: the lock never gets stuck. In every state that goroutines
    calling the methods reach from a new store: a goroutine inside a
    critical section can always run its next statement; as long as some
    call has not returned, some goroutine can run; and the lock is free
    whenever no goroutine is inside a critical section, in particular
    when all calls have returned. *)
Theorem X8_no_deadlock (d : time.Duration) (ts : list thread)
    (sched : list (nat * (UUID → time.Time))) (s : Program) :
  Forall (λ t, at_entry t = true) ts →
  prun (program_start d ts) sched = Some s →
  (∀ j t clk, threads s !! j = Some t →
              holds_read t = true ∨ holds_write t = true →
              is_Some (pstep s j clk))
  ∧ (∀ j t, threads s !! j = Some t → returned t = false →
            ∃ who, ∀ clk, is_Some (pstep s who clk))
  ∧ ((∀ j t, threads s !! j = Some t →
             holds_read t = false ∧ holds_write t = false) →
     cacheLock s = unlocked).
Proof.
  intros Hts Hrun.
  pose proof (prun_lock_inv sched _ s (lock_inv_start d ts Hts) Hrun)
    as (Hr & Hw & _).
  assert (∀ j t clk, threads s !! j = Some t →
                     holds_read t = true ∨ holds_write t = true →
                     is_Some (pstep s j clk)) as Hholder.
  { intros j t clk Hj Hh. apply (pstep_is_Some s j clk t Hj).
    by apply holder_steps. }
  split; [exact Hholder|]. split.
  - intros j t Hj Hret.
    destruct (writer (cacheLock s)) eqn:Hwr.
    { destruct Hw as [Hone _].
      destruct (count_exists holds_write (threads s) ltac:(lia))
        as (k & tk & Hk & Hhw).
      exists k. intros clk. apply (Hholder k tk clk Hk). by right. }
    destruct (readers (cacheLock s)) as [|n] eqn:Hrd.
    + exists j. intros clk. apply (pstep_is_Some s j clk t Hj).
      assert (cacheLock s = unlocked) as ->.
      { destruct (cacheLock s); simpl in *; by subst. }
      by apply free_lock_steps.
    + destruct (count_exists holds_read (threads s) ltac:(lia))
        as (k & tk & Hk & Hhr).
      exists k. intros clk. apply (Hholder k tk clk Hk). by left.
  - intros Hnone.
    rewrite (count_none holds_read) in Hr
      by (intros j t Hj; apply (Hnone j t Hj)).
    rewrite (count_none holds_write) in Hw
      by (intros j t Hj; apply (Hnone j t Hj)).
    destruct (cacheLock s) as [r w]; simpl in Hr, Hw. subst r.
    destruct w; [|reflexivity]. destruct Hw as [Hone _]. discriminate.
Qed.

Lemma X8_no_deadlock_witness :
  let ts := [Store_Lock 1%N (Bytes [x61]); Check_RLock 1%N; Sweep_RLock] in
  let sched := [(0%nat, λ _ : N, 0); (0%nat, λ _ : N, 0)] in
  ∃ s, prun (program_start 10 ts) sched = Some s
       ∧ pstep s 1 (λ _, 0) = None
       ∧ is_Some (pstep s 0 (λ _, 0)).
Proof.
  intros ts sched.
  destruct (prun (program_start 10 ts) sched) as [s|] eqn:Hrun;
    [|vm_compute in Hrun; discriminate].
  exists s.
  destruct (X8_no_deadlock 10 ts sched s ltac:(repeat constructor) Hrun)
    as (Hholder & _).
  vm_compute in Hrun. injection Hrun as <-.
  split; [reflexivity|]. split; [reflexivity|].
  apply (Hholder 0%nat (Store_cacheExpire 1%N)); [reflexivity|by right].
Defined.




(** ** The pattern of use *)

Lemma processRequest_hit {D W Resp Err}
    (doSomething : server.Request D → W → W * (Resp + Err))
    (s : server.Server W Resp) (req : server.Request D) (resp : Resp) :
  server.requestCache s !! server.Trx req = Some resp →
  server.processRequest doSomething s req = (s, inl resp).
Proof.
  intros Hl. unfold server.processRequest, server.lookup_phase.
  by rewrite Hl.
Qed.

Lemma processRequest_cases {D W Resp Err}
    (doSomething : server.Request D → W → W * (Resp + Err))
    (s : server.Server W Resp) (req : server.Request D) :
  let r := server.processRequest doSomething s req in
  (∃ resp, server.requestCache s !! server.Trx req = Some resp
           ∧ r = (s, inl resp))
  ∨ (server.requestCache s !! server.Trx req = None
     ∧ ∃ resp, (doSomething req (server.world s)).2 = inl resp
               ∧ r = (server.mkServer
                        (<[server.Trx req := resp]> (server.requestCache s))
                        (doSomething req (server.world s)).1, inl resp))
  ∨ (server.requestCache s !! server.Trx req = None
     ∧ ∃ err, (doSomething req (server.world s)).2 = inr err
              ∧ r = (server.mkServer (server.requestCache s)
                       (doSomething req (server.world s)).1, inr err)).
Proof.
  unfold server.processRequest, server.lookup_phase, server.execute_phase,
    server.remember_phase. simpl.
  destruct (server.requestCache s !! server.Trx req) as [resp|] eqn:Hl.
  - left. eauto.
  - right. destruct (doSomething req (server.world s)) as [w [resp|err]];
      simpl; [left|right]; eauto.
Qed.

Lemma processRequest_keeps {D W Resp Err}
    (doSomething : server.Request D → W → W * (Resp + Err))
    (s : server.Server W Resp) (req : server.Request D) (k : N) (v : Resp) :
  server.requestCache s !! k = Some v →
  server.requestCache (server.processRequest doSomething s req).1 !! k
  = Some v.
Proof.
  intros Hk.
  destruct (processRequest_cases doSomething s req)
    as [(resp & _ & ->)|[(Hn & resp & _ & ->)|(_ & err & _ & ->)]];
    simpl; [done| |done].
  rewrite lookup_insert_ne; [done|]. intros Heq. congruence.
Qed.

Lemma processRequest_remembers {D W Resp Err}
    (doSomething : server.Request D → W → W * (Resp + Err))
    (s : server.Server W Resp) (req : server.Request D) (resp : Resp) :
  (server.processRequest doSomething s req).2 = inl resp →
  server.requestCache (server.processRequest doSomething s req).1
    !! server.Trx req = Some resp.
Proof.
  destruct (processRequest_cases doSomething s req)
    as [(r & Hl & ->)|[(_ & r & _ & ->)|(_ & err & _ & ->)]];
    simpl; intros Heq; simplify_eq; [done|].
  by rewrite lookup_insert_eq.
Qed.

Lemma processRequest_source {D W Resp Err}
    (doSomething : server.Request D → W → W * (Resp + Err))
    (s : server.Server W Resp) (req : server.Request D) (k : N) (v : Resp) :
  server.requestCache (server.processRequest doSomething s req).1 !! k
  = Some v →
  server.requestCache s !! k = Some v
  ∨ (server.requestCache s !! k = None ∧ server.Trx req = k
     ∧ (server.processRequest doSomething s req).2 = inl v
     ∧ (doSomething req (server.world s)).2 = inl v).
Proof.
  destruct (processRequest_cases doSomething s req)
    as [(r & Hl & ->)|[(Hn & r & Hdo & ->)|(_ & err & _ & ->)]];
    simpl; intros Hk; [by left| |by left].
  destruct (decide (server.Trx req = k)) as [<-|Hne].
  - rewrite lookup_insert_eq in Hk. injection Hk as <-. right. done.
  - rewrite lookup_insert_ne in Hk by done. by left.
Qed.

Lemma processAll_keeps {D W Resp Err}
    (doSomething : server.Request D → W → W * (Resp + Err))
    (reqs : list (server.Request D)) (s : server.Server W Resp)
    (k : N) (v : Resp) :
  server.requestCache s !! k = Some v →
  server.requestCache (server.processAll doSomething s reqs).1 !! k = Some v.
Proof.
  revert s. induction reqs as [|req reqs IH]; intros s Hk; simpl; [done|].
  apply IH. by apply processRequest_keeps.
Qed.

Lemma processAll_length {D W Resp Err}
    (doSomething : server.Request D → W → W * (Resp + Err))
    (reqs : list (server.Request D)) (s : server.Server W Resp) :
  length (server.processAll doSomething s reqs).2 = length reqs.
Proof.
  revert s. induction reqs as [|req reqs IH]; intros s; simpl; [done|].
  by rewrite IH.
Qed.

Lemma processAll_remembers {D W Resp Err}
    (doSomething : server.Request D → W → W * (Resp + Err))
    (reqs : list (server.Request D)) (s : server.Server W Resp)
    (i : nat) (req : server.Request D) (resp : Resp) :
  reqs !! i = Some req →
  (server.processAll doSomething s reqs).2 !! i = Some (inl resp) →
  server.requestCache (server.processAll doSomething s reqs).1
    !! server.Trx req = Some resp.
Proof.
  revert s i. induction reqs as [|r0 reqs IH]; intros s i Hi Ho; [done|].
  simpl in *. destruct i as [|i]; simpl in *.
  - injection Hi as ->. injection Ho as Ho.
    apply processAll_keeps. by apply processRequest_remembers.
  - eauto.
Qed.

Lemma processAll_source {D W Resp Err}
    (doSomething : server.Request D → W → W * (Resp + Err))
    (reqs : list (server.Request D)) (s : server.Server W Resp)
    (k : N) (v : Resp) :
  server.requestCache (server.processAll doSomething s reqs).1 !! k
  = Some v →
  server.requestCache s !! k = Some v
  ∨ ∃ i req, reqs !! i = Some req ∧ server.Trx req = k
             ∧ (server.processAll doSomething s reqs).2 !! i
               = Some (inl v).
Proof.
  revert s. induction reqs as [|r0 reqs IH]; intros s Hk; simpl in *;
    [by left|].
  destruct (IH _ Hk) as [Hin|(i & req & Hi & Ht & Ho)].
  - destruct (processRequest_source doSomething s r0 k v Hin)
      as [?|(_ & Ht & Ho & _)]; [by left|].
    right. exists 0%nat, r0. simpl. by rewrite Ho.
  - right. exists (S i), req. done.
Qed.

(** X10: a repeated request is answered from the cache. Once
    [processRequest] has returned a response for a request, a later call
    for a request with the same [Trx], after any number of calls for other
    or the same requests, returns that response without calling
    [doSomething]: the server is left as the call found it, the state that
    [doSomething] acts on included. *)
Theorem X10_repeated_request_is_replayed {D W Resp Err}
    (doSomething : server.Request D → W → W * (Resp + Err))
    (s s1 : server.Server W Resp) (req again : server.Request D)
    (between : list (server.Request D)) (resp : Resp) :
  server.processRequest doSomething s req = (s1, inl resp) →
  server.Trx again = server.Trx req →
  let s2 := (server.processAll doSomething s1 between).1 in
  server.processRequest doSomething s2 again = (s2, inl resp).
Proof.
  intros Hfirst Htrx s2. apply processRequest_hit. rewrite Htrx.
  apply processAll_keeps.
  pose proof (processRequest_remembers doSomething s req resp) as Hr.
  rewrite Hfirst in Hr. by apply Hr.
Qed.

Lemma X10_repeated_request_is_replayed_witness :
  let doSomething := λ (r : server.Request unit) (w : nat),
                       (S w, inl w : nat + unit) in
  let s := server.mkServer (∅ : gmap N nat) 5%nat in
  let req := server.mkRequest 7%N () in
  let s2 := (server.processAll doSomething
               (server.processRequest doSomething s req).1
               [server.mkRequest 8%N (); req]).1 in
  server.world s2 = 7%nat
  ∧ server.processRequest doSomething s2 req = (s2, inl 5%nat).
Proof.
  intros doSomething s req s2. split; [reflexivity|].
  apply (X10_repeated_request_is_replayed doSomething s
           (server.processRequest doSomething s req).1 req req
           [server.mkRequest 8%N (); req] 5%nat); reflexivity.
Defined.

(** X11: in a run of calls of [processRequest], one after the other, all
    responses returned for one [Trx] are the same response, and that
    response is what the cache holds for the [Trx] at the end; the cache
    holds nothing but what it held before and responses that were
    returned: an error is returned and not remembered, and a request
    whose [Trx] is in the cache never reaches [doSomething]. *)
Theorem X11_one_response_per_Trx {D W Resp Err}
    (doSomething : server.Request D → W → W * (Resp + Err))
    (s : server.Server W Resp) (reqs : list (server.Request D)) :
  let r := server.processAll doSomething s reqs in
  length r.2 = length reqs
  ∧ (∀ i j reqi reqj respi respj,
       reqs !! i = Some reqi → reqs !! j = Some reqj →
       server.Trx reqi = server.Trx reqj →
       r.2 !! i = Some (inl respi) → r.2 !! j = Some (inl respj) →
       respi = respj
       ∧ server.requestCache r.1 !! server.Trx reqi = Some respi)
  ∧ (∀ k v, server.requestCache r.1 !! k = Some v →
       server.requestCache s !! k = Some v
       ∨ ∃ i req, reqs !! i = Some req ∧ server.Trx req = k
                  ∧ r.2 !! i = Some (inl v))
  ∧ ((∀ req, req ∈ reqs → is_Some (server.requestCache s !! server.Trx req))
     → r.1 = s).
Proof.
  intros r. split; [apply processAll_length|].
  split; [|split].
  - intros i j reqi reqj respi respj Hi Hj Ht Hoi Hoj.
    pose proof (processAll_remembers doSomething reqs s i reqi respi Hi Hoi)
      as Hci.
    pose proof (processAll_remembers doSomething reqs s j reqj respj Hj Hoj)
      as Hcj.
    rewrite <- Ht in Hcj. split; [congruence|done].
  - apply processAll_source.
  - subst r. clear. induction reqs as [|req reqs IH]; intros Hall; [done|].
    simpl. destruct (Hall req) as [v Hv]; [apply list_elem_of_here|].
    rewrite (processRequest_hit doSomething s req v Hv). simpl.
    apply IH. intros req' Hin. apply Hall. by apply list_elem_of_further.
Qed.

Lemma X11_one_response_per_Trx_witness :
  let doSomething := λ (r : server.Request unit) (w : nat),
                       (S w, if Nat.even w then inl w else inr () : nat + unit)
  in
  let s := server.mkServer (∅ : gmap N nat) 1%nat in
  let req := server.mkRequest 7%N () in
  let r := server.processAll doSomething s [req; req; req] in
  r.2 = [inr (); inl 2%nat; inl 2%nat]
  ∧ 2%nat = 2%nat
  ∧ server.requestCache r.1 !! 7%N = Some 2%nat.
Proof.
  intros doSomething s req r. split; [reflexivity|].
  destruct (X11_one_response_per_Trx doSomething s [req; req; req])
    as (_ & Hsame & _).
  apply (Hsame 1%nat 2%nat req req 2%nat 2%nat); reflexivity.
Defined.


